(** * update_sites.py: discovery and validation of speed-test mirrors

    A shallow embedding of [src/update_sites.py] and the properties of its
    pipeline: index fetch, URL extraction by regular expression, liveness
    probe, descriptor construction and the JSON catalog writer.

    Python [str] values are modelled as [string] (8-bit characters: the
    patterns of the script only name ASCII characters, every other code
    point behaves like any non-matching character).  The two libraries the
    script calls, [re] and [requests], are modelled in the modules [re] and
    [requests] below, as far as the script uses them. *)

From Stdlib Require Import String Ascii List ZArith Lia Bool Arith DecimalString.
From stdpp Require Import base gmap sets list strings.

Local Open Scope string_scope.
Local Open Scope list_scope.

Set Warnings "-register-all".

(** ** Python results: a value, or a raised [Exception] with its message *)

Inductive result (A : Type) : Type :=
| Ok (a : A)
| Raise (msg : string).
Arguments Ok {A} a.
Arguments Raise {A} msg.

(** ** The fragment of Python's [re] module used by the script *)

Module re.

(** A character set: the items of a class [[...]], each a range [lo-hi]
    (a single character [c] is the range [c-c]). *)
Definition cset := list (ascii * ascii).

(** Patterns.  The script's patterns are built from literal characters
    (plain or backslash-escaped), character classes, the greedy [+] applied
    to a character or a class, concatenation, alternation [|] and capturing
    groups [( )], numbered by their opening parenthesis. *)
Inductive regex : Type :=
| Eps
| Chr (c : ascii)
| Cls (cs : cset)
| Plus (cs : cset)
| Cat (r1 r2 : regex)
| Alt (r1 r2 : regex)
| Group (i : nat) (r : regex).

Definition in_range (c : ascii) (rg : ascii * ascii) : bool :=
  (nat_of_ascii (fst rg) <=? nat_of_ascii c)%nat &&
  (nat_of_ascii c <=? nat_of_ascii (snd rg))%nat.

Definition in_cset (cs : cset) (c : ascii) : bool := existsb (in_range c) cs.

(** *** Parsing a pattern string (sre_parse, restricted to the fragment) *)

Definition is_special (c : ascii) : bool :=
  existsb (Ascii.eqb c)
    ["."; "^"; "$"; "*"; "+"; "?"; "{"; "}"; "["; "]"; "("; ")"; "|"; "\"]%char.

Definition is_alnum (c : ascii) : bool :=
  in_cset [("0", "9"); ("A", "Z"); ("a", "z")]%char c.

(** The items of a class up to the closing bracket: [a-b] is a range, an
    escaped punctuation character stands for itself.  (A negated class
    [[^...]] is outside the fragment, see [parse_seq].) *)
Fixpoint parse_class (s : list ascii) (acc : cset) : option (cset * list ascii) :=
  match s with
  | [] => None
  | c :: t =>
      if Ascii.eqb c "]" then
        match acc with [] => None | _ => Some (rev acc, t) end
      else if Ascii.eqb c "\" then
        match t with
        | e :: rest => if is_alnum e then None else parse_class rest ((e, e) :: acc)
        | [] => None
        end
      else
        match t with
        | "-"%char :: t2 =>
            match t2 with
            | hi :: rest =>
                if Ascii.eqb hi "]" then parse_class t2 (("-", "-") :: (c, c) :: acc)%char
                else if Ascii.eqb hi "\" then None
                else if (nat_of_ascii c <=? nat_of_ascii hi)%nat
                     then parse_class rest ((c, hi) :: acc)
                     else None
            | [] => None
            end
        | _ => parse_class t ((c, c) :: acc)
        end
  end.

(** What a parsed item becomes when a [+] follows it. *)
Definition repeat_item (r : regex) : option regex :=
  match r with
  | Chr c => Some (Plus [(c, c)])
  | Cls cs => Some (Plus cs)
  | _ => None
  end.

(** [parse_alt] reads an alternation up to an unmatched [)] or the end of
    the pattern, [parse_seq] a concatenation, threading the number of groups
    opened so far.  [fuel] bounds the recursion depth. *)
Fixpoint parse_alt (fuel : nat) (s : list ascii) (n : nat)
  : option (regex * list ascii * nat) :=
  match fuel with
  | O => None
  | S fuel' =>
      match parse_seq fuel' s n with
      | Some (r1, "|"%char :: rest, n1) =>
          match parse_alt fuel' rest n1 with
          | Some (r2, rest2, n2) => Some (Alt r1 r2, rest2, n2)
          | None => None
          end
      | other => other
      end
  end
with parse_seq (fuel : nat) (s : list ascii) (n : nat)
  : option (regex * list ascii * nat) :=
  match fuel with
  | O => None
  | S fuel' =>
      let continue (item : regex) (rest : list ascii) (n1 : nat) :=
        match rest with
        | "+"%char :: rest1 =>
            match repeat_item item with
            | Some item' =>
                match parse_seq fuel' rest1 n1 with
                | Some (r, rest2, n2) => Some (Cat item' r, rest2, n2)
                | None => None
                end
            | None => None
            end
        | _ =>
            match parse_seq fuel' rest n1 with
            | Some (r, rest2, n2) => Some (Cat item r, rest2, n2)
            | None => None
            end
        end in
      match s with
      | [] => Some (Eps, [], n)
      | "|"%char :: _ => Some (Eps, s, n)
      | ")"%char :: _ => Some (Eps, s, n)
      | "("%char :: rest =>
          match parse_alt fuel' rest (S n) with
          | Some (r, ")"%char :: rest1, n1) => continue (Group (S n) r) rest1 n1
          | _ => None
          end
      | "["%char :: "^"%char :: _ => None
      | "["%char :: rest =>
          match parse_class rest [] with
          | Some (cs, rest1) => continue (Cls cs) rest1 n
          | None => None
          end
      | "\"%char :: c :: rest =>
          if is_alnum c then None else continue (Chr c) rest n
      | c :: rest =>
          if is_special c then None else continue (Chr c) rest n
      end
  end.

(** [re.compile]: the pattern and its number of groups; [None] stands for
    a pattern outside the fragment. *)
Definition compile (pattern : string) : option (regex * nat) :=
  let s := list_ascii_of_string pattern in
  match parse_alt (2 * length s + 2) s 0 with
  | Some (r, [], n) => Some (r, n)
  | _ => None
  end.

(** *** Matching

    A backtracking matcher in continuation-passing style, as sre runs a
    pattern: alternatives are tried in order, [+] is greedy and gives
    characters back one at a time, and the first way to reach the end of the
    pattern wins.  [s] is the text still to be read, [c] the text captured
    by each group so far, [k] what remains to be matched. *)

Abbreviation caps := (gmap nat (list ascii)).

Fixpoint plus_loop {A : Type} (cs : cset) (s : list ascii)
    (k : list ascii -> option A) : option A :=
  match s with
  | [] => None
  | x :: s' =>
      if in_cset cs x then
        match plus_loop cs s' k with
        | Some v => Some v
        | None => k s'
        end
      else None
  end.

Fixpoint run {A : Type} (r : regex) (s : list ascii) (c : caps)
    (k : list ascii -> caps -> option A) : option A :=
  match r with
  | Eps => k s c
  | Chr a =>
      match s with
      | x :: s' => if Ascii.eqb x a then k s' c else None
      | [] => None
      end
  | Cls cs =>
      match s with
      | x :: s' => if in_cset cs x then k s' c else None
      | [] => None
      end
  | Plus cs => plus_loop cs s (fun s' => k s' c)
  | Cat r1 r2 => run r1 s c (fun s' c' => run r2 s' c' k)
  | Alt r1 r2 =>
      match run r1 s c k with
      | Some v => Some v
      | None => run r2 s c k
      end
  | Group i r1 =>
      run r1 s c (fun s' c' => k s' (<[i := take (length s - length s') s]> c'))
  end.

(** A match object: the whole match ([group(0)]) and the groups. *)
Record Match : Type := mkMatch { group0 : list ascii; groups : caps }.

(** The match of [r] that starts at the head of [s], if any. *)
Definition match_here (r : regex) (s : list ascii) : option Match :=
  run r s ∅ (fun s' c => Some (mkMatch (take (length s - length s') s) c)).

(** [search]: the match at the leftmost position that has one. *)
Fixpoint search_from (r : regex) (s : list ascii) : option Match :=
  match match_here r s with
  | Some m => Some m
  | None =>
      match s with
      | [] => None
      | _ :: s' => search_from r s'
      end
  end.

(** [finditer]: the non-overlapping matches, left to right.  [skip] counts
    the characters of the previous match still to be stepped over; after an
    empty match the scan moves on by one character (sre first looks for a
    non-empty match at the same place; no pattern of the script matches the
    empty text, see [mirror_patterns_nonempty] and [size_token_nonempty]). *)
Fixpoint scan (r : regex) (s : list ascii) (skip : nat) : list Match :=
  match skip with
  | S skip' =>
      match s with
      | [] => []
      | _ :: s' => scan r s' skip'
      end
  | O =>
      match match_here r s with
      | Some m =>
          m :: match s with
               | [] => []
               | _ :: s' => scan r s' (length (group0 m) - 1)
               end
      | None =>
          match s with
          | [] => []
          | _ :: s' => scan r s' 0
          end
      end
  end.

Definition group_text (m : Match) (i : nat) : string :=
  string_of_list_ascii (default [] (groups m !! i)).

(** [re.search(pattern, string)]: [None] when no position matches.  A
    pattern that does not compile raises [re.error]. *)
Definition search (pattern text : string) : result (option Match) :=
  match compile pattern with
  | Some (r, _) => Ok (search_from r (list_ascii_of_string text))
  | None => Raise "re.error"
  end.

(** [m.group(0)] *)
Definition group (m : Match) : string := string_of_list_ascii (group0 m).

(** [re.findall(pattern, string)]: per match, the whole match when the
    pattern has no group and the text of group 1 when it has exactly one.
    (With two or more groups Python returns tuples; no pattern the script
    passes to [findall] has more than one group, see
    [mirror_patterns_groups].) *)
Definition findall (pattern text : string) : result (list string) :=
  match compile pattern with
  | Some (r, n) =>
      Ok (map (fun m => if (n =? 0)%nat then group m else group_text m 1)
              (scan r (list_ascii_of_string text) 0))
  | None => Raise "re.error"
  end.

End re.

(** ** The [requests] calls of the script, and the world they run in *)

(** What a run meets outside the process.  The [i]-th provider's index
    page is fetched once, each of its candidate URLs is probed once, so the
    answers of the network are indexed by the provider's position and the
    URL.  A set of strings is iterated in hash order, which the script does
    not control: any order of the elements.  Opening the output file may
    fail. *)
Record world : Type := mkWorld {
  net_get : nat -> string -> result string;
  net_head : nat -> string -> result Z;
  hash_order : nat -> gset string -> list string;
  hash_order_perm : forall i X, hash_order i X ≡ₚ elements X;
  fs_open : string -> result unit;
  fs_files : gmap string string
}.

Module requests.

(** requests prepares the URL before any I/O: a URL without a scheme (no
    [:] in it) raises [MissingSchema]. *)
Definition has_scheme (url : string) : bool :=
  existsb (Ascii.eqb ":") (list_ascii_of_string url).

(** [requests.get(url, timeout=15)], then [resp.text] *)
Definition get (w : world) (i : nat) (url : string) : result string :=
  if has_scheme url then net_get w i url else Raise "Invalid URL: No scheme supplied.".

(** [requests.head(url, timeout=10)], then [r.status_code] *)
Definition head (w : world) (i : nat) (url : string) : result Z :=
  if has_scheme url then net_head w i url else Raise "Invalid URL: No scheme supplied.".

End requests.

(** ** [json.dump(obj, f, indent=2)] for a list of objects with string values *)

Module json.

Definition nl : string := String "010" EmptyString.
Definition dq : string := String "034" EmptyString.

Definition hex_digit (n : nat) : ascii :=
  nth n ["0"; "1"; "2"; "3"; "4"; "5"; "6"; "7"; "8"; "9";
         "a"; "b"; "c"; "d"; "e"; "f"]%char "0"%char.

(** One character of a string, as [ensure_ascii] writes it. *)
Definition escape_char (c : ascii) : string :=
  let n := nat_of_ascii c in
  if (n =? 34)%nat then "\" +:+ dq
  else if (n =? 92)%nat then "\\"
  else if (n =? 10)%nat then "\n"
  else if (n =? 13)%nat then "\r"
  else if (n =? 9)%nat then "\t"
  else if (n =? 8)%nat then "\b"
  else if (n =? 12)%nat then "\f"
  else if ((32 <=? n) && (n <=? 126))%nat then String c EmptyString
  else "\u00" +:+ String (hex_digit (n / 16)) (String (hex_digit (n mod 16)) EmptyString).

Fixpoint escape (s : string) : string :=
  match s with
  | EmptyString => EmptyString
  | String c s' => escape_char c +:+ escape s'
  end.

Definition dump_string (s : string) : string := dq +:+ escape s +:+ dq.

Fixpoint join (sep : string) (l : list string) : string :=
  match l with
  | [] => EmptyString
  | [x] => x
  | x :: rest => x +:+ sep +:+ join sep rest
  end.

Fixpoint spaces (n : nat) : string :=
  match n with
  | O => EmptyString
  | S n' => String " " (spaces n')
  end.

(** An object at nesting depth [level], keys in insertion order. *)
Definition dump_object (indent level : nat) (kvs : list (string * string)) : string :=
  match kvs with
  | [] => "{}"
  | _ =>
      "{" +:+ nl +:+ spaces (indent * S level)
      +:+ join ("," +:+ nl +:+ spaces (indent * S level))
               (map (fun kv => dump_string (fst kv) +:+ ": " +:+ dump_string (snd kv)) kvs)
      +:+ nl +:+ spaces (indent * level) +:+ "}"
  end.

(** The top-level array. *)
Definition dump (objs : list (list (string * string))) (indent : nat) : string :=
  match objs with
  | [] => "[]"
  | _ =>
      "[" +:+ nl +:+ spaces indent
      +:+ join ("," +:+ nl +:+ spaces indent) (map (dump_object indent 1) objs)
      +:+ nl +:+ "]"
  end.

(** *** Reading a JSON text

    A reader of the JSON texts built from strings, arrays and objects
    (RFC 8259 without numbers and literal names; every text it accepts is a
    JSON text).  It reads one character at a time, keeping the containers
    that are still open on a stack. *)

Inductive value : Type :=
| Str (s : string)
| Arr (items : list value)
| Obj (members : list (string * value)).

(** An open container: the items read so far, last first; for an object
    also the key whose value is awaited. *)
Inductive frame : Type :=
| FArr (items : list value)
| FObj (members : list (string * value)) (key : option string).

(** What the reader expects next. *)
Inductive mode : Type :=
| Value
| ValueOrEnd
| Key (first : bool)
| Colon
| Chars (acc : list ascii) (is_key : bool)
| Escape (acc : list ascii) (is_key : bool)
| Hex (acc : list ascii) (is_key : bool) (code n : nat)
| After (v : value).

Definition state : Type := mode * list frame.

Definition is_ws (c : ascii) : bool :=
  existsb (Nat.eqb (nat_of_ascii c)) [32; 9; 10; 13]%nat.

Definition hex_value (c : ascii) : option nat :=
  let n := nat_of_ascii c in
  if ((48 <=? n) && (n <=? 57))%nat then Some (n - 48)%nat
  else if ((97 <=? n) && (n <=? 102))%nat then Some (n - 87)%nat
  else if ((65 <=? n) && (n <=? 70))%nat then Some (n - 55)%nat
  else None.

(** The character an escape letter stands for. *)
Definition unescape (c : ascii) : option ascii :=
  let n := nat_of_ascii c in
  if (n =? 34)%nat then Some c
  else if (n =? 92)%nat then Some c
  else if (n =? 47)%nat then Some c
  else if (n =? 98)%nat then Some (ascii_of_nat 8)
  else if (n =? 102)%nat then Some (ascii_of_nat 12)
  else if (n =? 110)%nat then Some (ascii_of_nat 10)
  else if (n =? 114)%nat then Some (ascii_of_nat 13)
  else if (n =? 116)%nat then Some (ascii_of_nat 9)
  else None.

Definition start_value (c : ascii) (stack : list frame) : option state :=
  if Ascii.eqb c "034" then Some (Chars [] false, stack)
  else if Ascii.eqb c "[" then Some (ValueOrEnd, FArr [] :: stack)
  else if Ascii.eqb c "{" then Some (Key true, FObj [] None :: stack)
  else None.

Definition close_string (s : string) (is_key : bool) (stack : list frame)
  : option state :=
  if is_key then
    match stack with
    | FObj ms None :: rest => Some (Colon, FObj ms (Some s) :: rest)
    | _ => None
    end
  else Some (After (Str s), stack).

Definition step (st : state) (c : ascii) : option state :=
  let (m, stack) := st in
  match m with
  | Value => if is_ws c then Some st else start_value c stack
  | ValueOrEnd =>
      if is_ws c then Some st
      else if Ascii.eqb c "]" then
        match stack with
        | FArr [] :: rest => Some (After (Arr []), rest)
        | _ => None
        end
      else start_value c stack
  | Key first =>
      if is_ws c then Some st
      else if Ascii.eqb c "034" then Some (Chars [] true, stack)
      else if first && Ascii.eqb c "}" then
        match stack with
        | FObj [] None :: rest => Some (After (Obj []), rest)
        | _ => None
        end
      else None
  | Colon =>
      if is_ws c then Some st
      else if Ascii.eqb c ":" then Some (Value, stack)
      else None
  | Chars acc k =>
      if Ascii.eqb c "034" then close_string (string_of_list_ascii (rev acc)) k stack
      else if Ascii.eqb c "\" then Some (Escape acc k, stack)
      else if (nat_of_ascii c <? 32)%nat then None
      else Some (Chars (c :: acc) k, stack)
  | Escape acc k =>
      match unescape c with
      | Some x => Some (Chars (x :: acc) k, stack)
      | None => if Ascii.eqb c "u" then Some (Hex acc k 0 0, stack) else None
      end
  | Hex acc k code n =>
      match hex_value c with
      | Some d =>
          let code' := (code * 16 + d)%nat in
          if (n =? 3)%nat then
            if (code' <? 256)%nat then Some (Chars (ascii_of_nat code' :: acc) k, stack)
            else None
          else Some (Hex acc k code' (S n), stack)
      | None => None
      end
  | After v =>
      if is_ws c then Some st
      else
        match stack with
        | FArr items :: rest =>
            if Ascii.eqb c "," then Some (Value, FArr (v :: items) :: rest)
            else if Ascii.eqb c "]" then Some (After (Arr (rev (v :: items))), rest)
            else None
        | FObj ms (Some key) :: rest =>
            if Ascii.eqb c "," then Some (Key false, FObj ((key, v) :: ms) None :: rest)
            else if Ascii.eqb c "}" then Some (After (Obj (rev ((key, v) :: ms))), rest)
            else None
        | _ => None
        end
  end.

(** The modes in which white space is skipped. *)
Definition skips (m : mode) : bool :=
  match m with
  | Value | ValueOrEnd | Key _ | Colon | After _ => true
  | _ => false
  end.

Definition feed (st : option state) (c : ascii) : option state :=
  match st with
  | Some s => step s c
  | None => None
  end.

Definition read (st : option state) (l : list ascii) : option state :=
  fold_left feed l st.

(** [json.loads(text)] *)
Definition loads (text : string) : option value :=
  match read (Some (Value, [])) (list_ascii_of_string text) with
  | Some (After v, []) => Some v
  | _ => None
  end.

End json.


(** ** The script *)

(** An entry of [mirror_pages]. *)
Record mirror : Type := mkMirror {
  m_name : string;
  m_country : string;
  m_url : string;
  m_pattern : string
}.

Definition mirror_pages : list mirror := [
  mkMirror "Hetzner Germany" "DE" "https://speed.hetzner.de/" "https://speed\.hetzner\.de/[0-9A-Za-z]+\.bin";
  mkMirror "ThinkBroadband UK" "UK" "http://ipv4.download.thinkbroadband.com/" "http://ipv4\.download\.thinkbroadband\.com/[0-9A-Za-z]+\.zip";
  mkMirror "OVH France" "FR" "http://proof.ovh.net/files/" "http://proof\.ovh\.net/files/[0-9A-Za-z]+\.(dat|zip)";
  mkMirror "Tele2 Sweden" "SE" "http://speedtest.tele2.net/" "http://speedtest\.tele2\.net/[0-9A-Za-z]+\.zip";
  mkMirror "Leaseweb NL" "NL" "https://mirror.nl.leaseweb.net/speedtest/" "https://mirror\.nl\.leaseweb\.net/speedtest/[0-9A-Za-z]+\.(bin|zip)";
  mkMirror "Leaseweb DE" "DE" "https://mirror.de.leaseweb.net/speedtest/" "https://mirror\.de\.leaseweb\.net/speedtest/[0-9A-Za-z]+\.(bin|zip)";
  mkMirror "Leaseweb US" "US" "https://mirror.us.leaseweb.net/speedtest/" "https://mirror\.us\.leaseweb\.net/speedtest/[0-9A-Za-z]+\.(bin|zip)";
  mkMirror "Leaseweb SG" "SG" "https://mirror.sg.leaseweb.net/speedtest/" "https://mirror\.sg\.leaseweb\.net/speedtest/[0-9A-Za-z]+\.(bin|zip)";
  mkMirror "Linode US" "US" "https://speedtest.newark.linode.com/" "https://speedtest\.newark\.linode\.com/[0-9A-Za-z\-]+\.bin";
  mkMirror "Linode DE" "DE" "https://speedtest.frankfurt.linode.com/" "https://speedtest\.frankfurt\.linode\.com/[0-9A-Za-z\-]+\.bin";
  mkMirror "Linode UK" "UK" "https://speedtest.london.linode.com/" "https://speedtest\.london\.linode\.com/[0-9A-Za-z\-]+\.bin";
  mkMirror "Linode JP" "JP" "https://speedtest.tokyo2.linode.com/" "https://speedtest\.tokyo2\.linode\.com/[0-9A-Za-z\-]+\.bin";
  mkMirror "Linode SG" "SG" "https://speedtest.singapore.linode.com/" "https://speedtest\.singapore\.linode\.com/[0-9A-Za-z\-]+\.bin";
  mkMirror "Azure Global" "GLOBAL" "https://www.azurespeed.com/Azure/Download" "https://azurespeedtestfiles\.blob\.core\.windows\.net/blobtestfiles/test[0-9a-zA-Z]+\.db";
  mkMirror "AWS S3 US East" "US" "https://speedtest.s3.amazonaws.com/" "https://speedtest\.s3\.amazonaws\.com/[0-9A-ZaZ]+\.bin";
  mkMirror "DigitalOcean NYC1" "US" "https://s3.amazonaws.com/speedtest-nyc1.digitalocean.com/" "https://s3\.amazonaws\.com/speedtest-nyc1\.digitalocean\.com/[0-9A-Za-z]+\.test"
].

(** [is_alive(url)], called while the [i]-th provider is processed. *)
Definition is_alive (w : world) (i : nat) (url : string) : bool :=
  match requests.head w i url with
  | Ok status_code => (status_code =? 200)%Z
  | Raise _ => false
  end.

(** [file_size_from_url(url)] *)
Definition file_size_from_url (url : string) : result string :=
  match re.search "([0-9]+)(MB|GB|Mb|Gb)" url with
  | Ok (Some m) => Ok (re.group m)
  | Ok None => Ok "file"
  | Raise e => Raise e
  end.

(** An element of [sites]. *)
Record descriptor : Type := mkDescriptor {
  name : string;
  url : string;
  country : string
}.

Definition to_object (d : descriptor) : list (string * string) :=
  [("name", name d); ("url", url d); ("country", country d)].

(** The JSON value of a descriptor. *)
Definition descriptor_value (d : descriptor) : json.value :=
  json.Obj [("name", json.Str (name d)); ("url", json.Str (url d));
            ("country", json.Str (country d))].

(** The body of [for url in urls]: the list so far, and the exception that
    ended the loop, if one did. *)
Fixpoint probe_urls (w : world) (i : nat) (mr : mirror) (urls : list string)
    (sites : list descriptor) : list descriptor * option string :=
  match urls with
  | [] => (sites, None)
  | u :: rest =>
      if is_alive w i u then
        match file_size_from_url u with
        | Ok size =>
            probe_urls w i mr rest
              (sites ++ [mkDescriptor (m_name mr +:+ " " +:+ size) u (m_country mr)])
        | Raise e => (sites, Some e)
        end
      else probe_urls w i mr rest sites
  end.

(** The [try] block for one provider: the list so far and the exception
    that left the block, if one did. *)
Definition try_mirror (w : world) (i : nat) (mr : mirror) (sites : list descriptor)
  : list descriptor * option string :=
  match requests.get w i (m_url mr) with
  | Raise e => (sites, Some e)
  | Ok text =>
      match re.findall (m_pattern mr) text with
      | Raise e => (sites, Some e)
      | Ok found =>
          let urls : gset string := list_to_set found in
          probe_urls w i mr (hash_order w i urls) sites
      end
  end.

(** The state of [main]'s loop: [sites] and the lines printed so far. *)
Definition loop_state : Type := list descriptor * list string.

(** One turn of [for mirror in mirror_pages], with its [except] clause. *)
Definition visit (w : world) (i : nat) (mr : mirror) (st : loop_state) : loop_state :=
  match try_mirror w i mr (fst st) with
  | (sites, None) => (sites, snd st)
  | (sites, Some e) =>
      (sites, snd st ++ ["Failed to fetch " +:+ m_url mr +:+ ": " +:+ e])
  end.

Fixpoint visit_all (w : world) (i : nat) (pages : list mirror) (st : loop_state)
  : loop_state :=
  match pages with
  | [] => st
  | mr :: rest => visit_all w (S i) rest (visit w i mr st)
  end.

(** How a run ends: what was printed, the files, and the exception that
    ended the process, if one did. *)
Record outcome : Type := mkOutcome {
  stdout : list string;
  files : gmap string string;
  uncaught : option string
}.

Definition str_of_nat (n : nat) : string := NilZero.string_of_uint (Nat.to_uint n).

(** [main()], over a given provider table. *)
Definition main_on (pages : list mirror) (w : world) : outcome :=
  let st := visit_all w 0 pages ([], []) in
  match fs_open w "../sites.jsonc" with
  | Raise e => mkOutcome (snd st) (fs_files w) (Some e)
  | Ok _ =>
      mkOutcome
        (snd st ++ ["Updated sites.jsonc with " +:+ str_of_nat (length (fst st))
                    +:+ " alive entries."])
        (<["../sites.jsonc" := json.dump (map to_object (fst st)) 2]> (fs_files w))
        None
  end.

Definition main (w : world) : outcome := main_on mirror_pages w.

(** The list [sites] when the loop is over. *)
Definition sites_of (pages : list mirror) (w : world) : list descriptor :=
  fst (visit_all w 0 pages ([], [])).

(** The lines printed when the loop is over. *)
Definition printed (pages : list mirror) (w : world) : list string :=
  snd (visit_all w 0 pages ([], [])).

(** The descriptors appended while the [i]-th provider is processed. *)
Definition entries (w : world) (i : nat) (mr : mirror) : list descriptor :=
  fst (try_mirror w i mr []).

Fixpoint all_entries (w : world) (i : nat) (pages : list mirror) : list descriptor :=
  match pages with
  | [] => []
  | mr :: rest => entries w i mr ++ all_entries w (S i) rest
  end.

(** ** Vocabulary of the properties *)

Module re_spec.
Import re.

(** The language of a pattern: [matches r u] when the whole of [u] is a
    match of [r]. *)
Inductive matches : regex -> list ascii -> Prop :=
| M_Eps : matches Eps []
| M_Chr a : matches (Chr a) [a]
| M_Cls cs x : in_cset cs x = true -> matches (Cls cs) [x]
| M_Plus cs u : u <> [] -> forallb (in_cset cs) u = true -> matches (Plus cs) u
| M_Cat r1 r2 u1 u2 : matches r1 u1 -> matches r2 u2 -> matches (Cat r1 r2) (u1 ++ u2)
| M_AltL r1 r2 u : matches r1 u -> matches (Alt r1 r2) u
| M_AltR r1 r2 u : matches r2 u -> matches (Alt r1 r2) u
| M_Group i r u : matches r u -> matches (Group i r) u.

(** [s] is, as a whole, a match of the pattern string. *)
Definition full_match (pattern s : string) : Prop :=
  exists r n, compile pattern = Some (r, n) /\ matches r (list_ascii_of_string s).

(** Every group of [r] captures only texts that satisfy [P]. *)
Fixpoint groups_ok (P : nat -> list ascii -> Prop) (r : regex) : Prop :=
  match r with
  | Cat r1 r2 | Alt r1 r2 => groups_ok P r1 /\ groups_ok P r2
  | Group i r1 => (forall u, matches r1 u -> P i u) /\ groups_ok P r1
  | _ => True
  end.

Definition caps_ok (P : nat -> list ascii -> Prop) (c : caps) : Prop :=
  forall i u, c !! i = Some u -> P i u.

(** Whether the character [x] occurs in some text of the language of [r]
    (an over-approximation), and whether no group of [r] can capture it. *)
Fixpoint emits (x : ascii) (r : regex) : bool :=
  match r with
  | Eps => false
  | Chr a => Ascii.eqb x a
  | Cls cs | Plus cs => in_cset cs x
  | Cat r1 r2 | Alt r1 r2 => emits x r1 || emits x r2
  | Group _ r1 => emits x r1
  end.

Fixpoint groups_avoid (x : ascii) (r : regex) : bool :=
  match r with
  | Cat r1 r2 | Alt r1 r2 => groups_avoid x r1 && groups_avoid x r2
  | Group _ r1 => negb (emits x r1) && groups_avoid x r1
  | _ => true
  end.

(** The literal characters every match of [r] starts with. *)
Fixpoint literal_prefix (r : regex) : list ascii :=
  match r with
  | Cat (Chr a) r2 => a :: literal_prefix r2
  | Chr a => [a]
  | _ => []
  end.

End re_spec.

(** Size tokens: digits immediately followed by a unit. *)

Definition is_digit (c : ascii) : bool := re.in_cset [("0", "9")]%char c.

Definition units : list string := ["MB"; "GB"; "Mb"; "Gb"].

Definition is_size_token (t : string) : Prop :=
  exists d u, t = d +:+ u /\ d <> EmptyString /\
              forallb is_digit (list_ascii_of_string d) = true /\ In u units.

(** [t] occurs in [s] after the first [k] characters. *)
Definition occurs_at (s : string) (k : nat) (t : string) : Prop :=
  exists pre post, s = pre +:+ t +:+ post /\ String.length pre = k.

Definition has_size_token (s : string) : Prop :=
  exists k t, is_size_token t /\ occurs_at s k t.

(** [t] is the size token of [s] that starts first. *)
Definition first_size_token (s t : string) : Prop :=
  exists k, is_size_token t /\ occurs_at s k t /\
            forall j t', (j < k)%nat -> is_size_token t' -> ~ occurs_at s j t'.

(** The language of the size pattern, on lists of characters. *)
Definition token (t : list ascii) : Prop :=
  exists d u, t = d ++ u /\ d <> [] /\ forallb is_digit d = true /\
              In (string_of_list_ascii u) units.

Definition starts_nondigit (x : list ascii) : Prop :=
  match x with
  | c :: _ => is_digit c = false
  | [] => False
  end.

(** [t] occurs in [L] after [k] characters. *)
Definition at_position (L : list ascii) (k : nat) (t : list ascii) : Prop :=
  exists pre post, L = pre ++ t ++ post /\ length pre = k.

Definition ends_with (s suffix : string) : Prop := exists pre, s = pre +:+ suffix.

Definition is_lower (c : ascii) : bool := re.in_cset [("a", "z")]%char c.
Definition is_upper (c : ascii) : bool := re.in_cset [("A", "Z")]%char c.

(** A pattern of the table is fit for [findall] when it compiles and either
    has no group or has one whose captures hold no [:]. *)
Definition pattern_fit (mr : mirror) : bool :=
  match re.compile (m_pattern mr) with
  | Some (r, n) => (n =? 0)%nat || ((n =? 1)%nat && re_spec.groups_avoid ":" r)
  | None => false
  end.

Definition groupless (mr : mirror) : bool :=
  match re.compile (m_pattern mr) with
  | Some (_, n) => (n =? 0)%nat
  | None => false
  end.

(** The pattern of [file_size_from_url], compiled. *)
Definition size_regex : re.regex :=
  re.Cat (re.Group 1 (re.Cat (re.Plus [("0", "9")]%char) re.Eps))
    (re.Cat
       (re.Group 2
          (re.Alt (re.Cat (re.Chr "M") (re.Cat (re.Chr "B") re.Eps))
             (re.Alt (re.Cat (re.Chr "G") (re.Cat (re.Chr "B") re.Eps))
                (re.Alt (re.Cat (re.Chr "M") (re.Cat (re.Chr "b") re.Eps))
                   (re.Cat (re.Chr "G") (re.Cat (re.Chr "b") re.Eps))))))
       re.Eps).

(** The label [file_size_from_url] returns. *)
Definition size_label (u : string) : string :=
  match re.search_from size_regex (list_ascii_of_string u) with
  | Some m => re.group m
  | None => "file"
  end.

(** The descriptor [main] builds for a live URL [u] of provider [mr]. *)
Definition descriptor_for (mr : mirror) (u : string) : descriptor :=
  mkDescriptor (m_name mr +:+ " " +:+ size_label u) u (m_country mr).

(** The candidate URLs of a provider for a page text. *)
Definition candidates (mr : mirror) (text : string) : gset string :=
  match re.findall (m_pattern mr) text with
  | Ok found => list_to_set found
  | Raise _ => ∅
  end.

(** Two literal prefixes that some text can both start with. *)
Fixpoint compatible (a b : list ascii) : bool :=
  match a, b with
  | x :: a', y :: b' => Ascii.eqb x y && compatible a' b'
  | _, _ => true
  end.

Definition prefix_of_pattern (mr : mirror) : list ascii :=
  match re.compile (m_pattern mr) with
  | Some (r, _) => re_spec.literal_prefix r
  | None => []
  end.

(** No text starts with the literal prefixes of two entries of the table. *)
Fixpoint distinct_prefixes (pages : list mirror) : bool :=
  match pages with
  | [] => true
  | mr :: rest =>
      forallb (fun mr' => negb (compatible (prefix_of_pattern mr) (prefix_of_pattern mr')))
              rest
      && distinct_prefixes rest
  end.

(** The line printed when the fetch of a provider's page fails. *)
Definition failure_line (mr : mirror) (e : string) : string :=
  "Failed to fetch " +:+ m_url mr +:+ ": " +:+ e.

Definition summary_line (n : nat) : string :=
  "Updated sites.jsonc with " +:+ str_of_nat n +:+ " alive entries.".

(** The classes that occur in a pattern, and a pattern that starts with
    the literal characters [l]. *)
Fixpoint classes_of (r : re.regex) : list re.cset :=
  match r with
  | re.Cls cs | re.Plus cs => [cs]
  | re.Cat r1 r2 | re.Alt r1 r2 => classes_of r1 ++ classes_of r2
  | re.Group _ r1 => classes_of r1
  | _ => []
  end.

Fixpoint lit (l : list ascii) (r : re.regex) : re.regex :=
  match l with
  | [] => r
  | a :: l' => re.Cat (re.Chr a) (lit l' r)
  end.

(** The class [[0-9A-ZaZ]] of the AWS pattern. *)
Definition aws_class : re.cset := [("0", "9"); ("A", "Z"); ("a", "a"); ("Z", "Z")]%char.

Definition aws : mirror :=
  mkMirror "AWS S3 US East" "US" "https://speedtest.s3.amazonaws.com/"
           "https://speedtest\.s3\.amazonaws\.com/[0-9A-ZaZ]+\.bin".

(** The failure lines of the providers whose fetch raises, in table order. *)
Fixpoint failures (w : world) (i : nat) (pages : list mirror) : list string :=
  match pages with
  | [] => []
  | mr :: rest =>
      match requests.get w i (m_url mr) with
      | Raise e => [failure_line mr e]
      | Ok _ => []
      end ++ failures w (S i) rest
  end.

(** Characters that [json.dump] writes as they are. *)
Definition plain_char (c : ascii) : bool :=
  let n := nat_of_ascii c in
  (32 <=? n)%nat && (n <=? 126)%nat && negb (n =? 34)%nat && negb (n =? 92)%nat.

Definition plain (s : string) : bool := forallb plain_char (list_ascii_of_string s).

Definition all_ascii : list ascii := map ascii_of_nat (seq 0 256).

(** An entry of the table whose name, country and matched URLs hold plain
    characters only. *)
Definition mirror_plain (mr : mirror) : bool :=
  plain (m_name mr) && plain (m_country mr) &&
  match re.compile (m_pattern mr) with
  | Some (r, _) => forallb (fun c => negb (re_spec.emits c r) || plain_char c) all_ascii
  | None => false
  end.

(** The text of an object whose strings need no escape. *)
Definition object_text (d : descriptor) : string :=
  "{" +:+ json.nl
  +:+ "    " +:+ json.dq +:+ "name" +:+ json.dq +:+ ": "
            +:+ json.dq +:+ name d +:+ json.dq +:+ "," +:+ json.nl
  +:+ "    " +:+ json.dq +:+ "url" +:+ json.dq +:+ ": "
            +:+ json.dq +:+ url d +:+ json.dq +:+ "," +:+ json.nl
  +:+ "    " +:+ json.dq +:+ "country" +:+ json.dq +:+ ": "
            +:+ json.dq +:+ country d +:+ json.dq +:+ json.nl
  +:+ "  }".

(** What follows the literal prefix in a pattern. *)
Fixpoint after_prefix (r : re.regex) : re.regex :=
  match r with
  | re.Cat (re.Chr _) r2 => after_prefix r2
  | re.Chr _ => re.Eps
  | _ => r
  end.

(** An entry of the table whose pattern starts with its index URL and goes
    on without [/]. *)
Definition under_index (mr : mirror) : bool :=
  match re.compile (m_pattern mr) with
  | Some (r, n) =>
      (n =? 0)%nat
      && bool_decide (re_spec.literal_prefix r = list_ascii_of_string (m_url mr))
      && negb (re_spec.emits "/" (after_prefix r))
  | None => false
  end.

(** An entry of the table whose pattern goes on without [/] after its
    literal prefix, the prefix holding no size token. *)
Definition prefix_tokenless (mr : mirror) : bool :=
  match re.compile (m_pattern mr) with
  | Some (r, _) =>
      negb (re_spec.emits "/" (after_prefix r))
      && match re.search_from size_regex (re_spec.literal_prefix r) with
         | None => true
         | Some _ => false
         end
  | None => false
  end.

(** ** Example worlds *)

Definition hetzner_100MB : string := "https://speed.hetzner.de/100MB.bin".

(** The first entry of [mirror_pages]. *)
Definition hetzner : mirror :=
  mkMirror "Hetzner Germany" "DE" "https://speed.hetzner.de/"
           "https://speed\.hetzner\.de/[0-9A-Za-z]+\.bin".

(** The first provider's page lists one file twice and every probe
    answers 200; every other index page times out. *)
Definition world_hetzner_twice : world :=
  mkWorld
    (fun i _ => if (i =? 0)%nat then Ok (hetzner_100MB +:+ " " +:+ hetzner_100MB)
                else Raise "timed out")
    (fun _ _ => Ok 200%Z)
    (fun _ X => elements X)
    (fun _ X => Permutation_refl (elements X))
    (fun _ => Ok tt)
    ∅.

(** The third entry of [mirror_pages]. *)
Definition ovh : mirror :=
  mkMirror "OVH France" "FR" "http://proof.ovh.net/files/"
           "http://proof\.ovh\.net/files/[0-9A-Za-z]+\.(dat|zip)".

(** Every index page lists two OVH files and every probe the network
    sees answers 200. *)
Definition world_ovh_up : world :=
  mkWorld
    (fun _ _ => Ok "http://proof.ovh.net/files/1Gb.dat http://proof.ovh.net/files/10Gb.dat")
    (fun _ _ => Ok 200%Z)
    (fun _ X => elements X)
    (fun _ X => Permutation_refl (elements X))
    (fun _ => Ok tt)
    ∅.

(** The second entry of [mirror_pages]. *)
Definition thinkbroadband : mirror :=
  mkMirror "ThinkBroadband UK" "UK" "http://ipv4.download.thinkbroadband.com/"
           "http://ipv4\.download\.thinkbroadband\.com/[0-9A-Za-z]+\.zip".

Definition thinkbroadband_1GB : string := "http://ipv4.download.thinkbroadband.com/1GB.zip".

(** Every index page lists one Hetzner file and one ThinkBroadband file;
    every probe answers 200. *)
Definition world_two_up : world :=
  mkWorld
    (fun _ _ => Ok (hetzner_100MB +:+ " " +:+ thinkbroadband_1GB))
    (fun _ _ => Ok 200%Z)
    (fun _ X => elements X)
    (fun _ X => Permutation_refl (elements X))
    (fun _ => Ok tt)
    ∅.

Definition hetzner_1GB : string := "https://speed.hetzner.de/1GB.bin".

(** The first provider's page lists two files and every probe answers 200;
    every other index page times out.  Sets are iterated in the order of
    [elements]. *)
Definition world_hetzner_pair : world :=
  mkWorld
    (fun i _ => if (i =? 0)%nat then Ok (hetzner_100MB +:+ " " +:+ hetzner_1GB)
                else Raise "timed out")
    (fun _ _ => Ok 200%Z)
    (fun _ X => elements X)
    (fun _ X => Permutation_refl (elements X))
    (fun _ => Ok tt)
    ∅.

(** The same network, the sets iterated the other way round. *)
Definition world_hetzner_pair_reversed : world :=
  mkWorld
    (fun i _ => if (i =? 0)%nat then Ok (hetzner_100MB +:+ " " +:+ hetzner_1GB)
                else Raise "timed out")
    (fun _ _ => Ok 200%Z)
    (fun _ X => reverse (elements X))
    (fun _ X => reverse_Permutation (elements X))
    (fun _ => Ok tt)
    ∅.

(** Every index page times out. *)
Definition world_offline : world :=
  mkWorld
    (fun _ _ => Raise "timed out")
    (fun _ _ => Raise "timed out")
    (fun _ X => elements X)
    (fun _ X => Permutation_refl (elements X))
    (fun _ => Ok tt)
    ∅.

(** The document written for the single descriptor of [hetzner_100MB]. *)
Definition hetzner_document : string :=
  "[" +:+ json.nl
  +:+ "  {" +:+ json.nl
  +:+ "    " +:+ json.dq +:+ "name" +:+ json.dq +:+ ": "
            +:+ json.dq +:+ "Hetzner Germany 100MB" +:+ json.dq +:+ "," +:+ json.nl
  +:+ "    " +:+ json.dq +:+ "url" +:+ json.dq +:+ ": "
            +:+ json.dq +:+ "https://speed.hetzner.de/100MB.bin" +:+ json.dq +:+ "," +:+ json.nl
  +:+ "    " +:+ json.dq +:+ "country" +:+ json.dq +:+ ": "
            +:+ json.dq +:+ "DE" +:+ json.dq +:+ json.nl
  +:+ "  }" +:+ json.nl
  +:+ "]".

(** * Properties *)

(** ** The matcher *)

Module re_facts.
Import re re_spec.

Lemma take_consumed (u s' : list ascii) :
  take (length (u ++ s') - length s') (u ++ s') = u.
Proof.
  rewrite length_app.
  replace (length u + length s' - length s')%nat with (length u) by lia.
  by rewrite take_app_length.
Qed.

Lemma plus_loop_sound {A : Type} cs s (k : list ascii -> option A) v :
  plus_loop cs s k = Some v ->
  exists u s', s = u ++ s' /\ u <> [] /\ forallb (in_cset cs) u = true /\ k s' = Some v.
Proof.
  induction s as [|x s IH]; simpl; [discriminate|].
  destruct (in_cset cs x) eqn:Hx; [|discriminate].
  destruct (plus_loop cs s k) as [v'|] eqn:Hl.
  - intros [= ->]. destruct (IH eq_refl) as (u & s' & -> & _ & Hu & Hk).
    exists (x :: u), s'. simpl. rewrite Hx, Hu. done.
  - intros Hk. exists [x], s. simpl. rewrite Hx. done.
Qed.

Lemma plus_loop_complete {A : Type} cs u s' (k : list ascii -> option A) :
  u <> [] -> forallb (in_cset cs) u = true -> is_Some (k s') ->
  is_Some (plus_loop cs (u ++ s') k).
Proof.
  induction u as [|x u IH]; [done|]. intros _ Hu Hk. simpl in *.
  apply andb_prop in Hu as [Hx Hu]. rewrite Hx.
  destruct u as [|y u].
  - simpl. destruct (plus_loop cs s' k); eauto.
  - destruct (IH ltac:(done) Hu Hk) as [v ->]. eauto.
Qed.

Section soundness.
Variable P : nat -> list ascii -> Prop.

Lemma run_sound r : forall (A : Type) s c (k : list ascii -> caps -> option A) v,
  groups_ok P r -> caps_ok P c -> run r s c k = Some v ->
  exists u s' c', s = u ++ s' /\ matches r u /\ caps_ok P c' /\ k s' c' = Some v.
Proof.
  induction r as [|a|cs|cs|r1 IH1 r2 IH2|r1 IH1 r2 IH2|i r1 IH1];
    intros A s c k v Hg Hc Hrun; simpl in *.
  - exists [], s, c. eauto using matches.
  - destruct s as [|x s]; [discriminate|].
    destruct (Ascii.eqb x a) eqn:E; [|discriminate].
    apply Ascii.eqb_eq in E as ->. exists [a], s, c. eauto using matches.
  - destruct s as [|x s]; [discriminate|].
    destruct (in_cset cs x) eqn:E; [|discriminate].
    exists [x], s, c. eauto using matches.
  - apply plus_loop_sound in Hrun as (u & s' & -> & Hne & Hu & Hk).
    exists u, s', c. eauto using matches.
  - destruct Hg as [Hg1 Hg2].
    apply IH1 in Hrun as (u1 & s1 & c1 & -> & Hm1 & Hc1 & Hrun); [|done..].
    apply IH2 in Hrun as (u2 & s2 & c2 & -> & Hm2 & Hc2 & Hk); [|done..].
    exists (u1 ++ u2), s2, c2. rewrite <- app_assoc. eauto using matches.
  - destruct Hg as [Hg1 Hg2].
    destruct (run r1 s c k) as [v'|] eqn:E1.
    + injection Hrun as ->.
      apply IH1 in E1 as (u & s' & c' & -> & Hm & Hc' & Hk); [|done..].
      exists u, s', c'. eauto using matches.
    + apply IH2 in Hrun as (u & s' & c' & -> & Hm & Hc' & Hk); [|done..].
      exists u, s', c'. eauto using matches.
  - destruct Hg as [Hi Hg1].
    apply IH1 in Hrun as (u & s' & c' & -> & Hm & Hc' & Hk); [|done..].
    rewrite take_consumed in Hk.
    exists u, s', (<[i := u]> c'). repeat split; eauto using matches.
    intros j t. rewrite lookup_insert. case_decide; [|apply Hc'].
    intros [= <-]. subst. auto.
Qed.
End soundness.

Lemma run_complete r u :
  matches r u ->
  forall (A : Type) s' c (k : list ascii -> caps -> option A),
    (forall c', is_Some (k s' c')) -> is_Some (run r (u ++ s') c k).
Proof.
  induction 1 as [|a|cs x Hx|cs u Hne Hu|r1 r2 u1 u2 _ IH1 _ IH2
                 |r1 r2 u _ IH|r1 r2 u _ IH|i r u _ IH];
    intros A s' c k Hk; simpl.
  - apply Hk.
  - rewrite Ascii.eqb_refl. apply Hk.
  - rewrite Hx. apply Hk.
  - apply plus_loop_complete; auto.
  - rewrite <- app_assoc. apply IH1. intros c'. apply IH2, Hk.
  - destruct (IH A s' c k Hk) as [v ->]. eauto.
  - destruct (run r1 (u ++ s') c k); eauto.
  - apply IH. intros c'. apply Hk.
Qed.

Lemma match_here_sound P r s m :
  groups_ok P r -> match_here r s = Some m ->
  matches r (group0 m) /\ (exists rest, s = group0 m ++ rest) /\ caps_ok P (groups m).
Proof.
  intros Hg Hm. unfold match_here in Hm.
  apply (run_sound P) in Hm as (u & s' & c' & -> & Hu & Hc & [= <-]); [|done|done].
  simpl. rewrite take_consumed. eauto.
Qed.

Lemma groups_ok_True r : groups_ok (fun _ _ => True) r.
Proof. induction r; simpl; auto. Qed.

Lemma match_here_match r s m :
  match_here r s = Some m -> matches r (group0 m) /\ exists rest, s = group0 m ++ rest.
Proof.
  intros Hm. apply (match_here_sound (fun _ _ => True)) in Hm as (? & ? & _);
    auto using groups_ok_True.
Qed.

Lemma match_here_complete r u rest :
  matches r u -> is_Some (match_here r (u ++ rest)).
Proof. intros Hu. unfold match_here. apply run_complete; eauto. Qed.

Lemma match_here_None r s u rest :
  match_here r s = None -> s = u ++ rest -> ~ matches r u.
Proof.
  intros Hn -> Hu. destruct (match_here_complete r u rest Hu) as [m Hm]. congruence.
Qed.

(** [search_from] returns the match at the first position that has one. *)
Lemma search_from_Some r s m :
  search_from r s = Some m ->
  exists pre, match_here r (drop (length pre) s) = Some m /\
              (exists post, s = pre ++ group0 m ++ post) /\
              forall j, (j < length pre)%nat -> match_here r (drop j s) = None.
Proof.
  induction s as [|x s IH]; simpl.
  - destruct (match_here r []) as [m'|] eqn:E; [|discriminate].
    intros [= ->]. exists []. simpl. split; [done|]. split; [|intros; lia].
    apply match_here_match in E as (_ & rest & E). exists rest. done.
  - destruct (match_here r (x :: s)) as [m'|] eqn:E.
    + intros [= ->]. exists []. simpl. split; [done|]. split; [|intros; lia].
      apply match_here_match in E as (_ & rest & E). exists rest. done.
    + intros Hs. destruct (IH Hs) as (pre & Hm & (post & Hpost) & Hbefore).
      exists (x :: pre). simpl. split; [done|]. split.
      * exists post. by rewrite Hpost at 1.
      * intros [|j] Hj; simpl; [done|]. apply Hbefore. lia.
Qed.

Lemma search_from_None r s :
  search_from r s = None -> forall j, match_here r (drop j s) = None.
Proof.
  induction s as [|x s IH]; simpl.
  - destruct (match_here r []) eqn:E; [discriminate|]. intros _ j. by rewrite drop_nil.
  - destruct (match_here r (x :: s)) eqn:E; [discriminate|].
    intros Hs [|j]; simpl; auto.
Qed.

Lemma search_from_skip r pre s :
  (forall j, (j < length pre)%nat -> match_here r (drop j (pre ++ s)) = None) ->
  search_from r (pre ++ s) = search_from r s.
Proof.
  induction pre as [|x pre IH]; [done|]. intros H.
  pose proof (H 0%nat ltac:(simpl; lia)) as H0. simpl in H0 |- *.
  rewrite H0. apply IH. intros j Hj. apply (H (S j)). simpl. lia.
Qed.

(** Every element of [scan] is a match of the pattern found in the text. *)
Lemma scan_sound P r : groups_ok P r -> forall s skip m,
  In m (scan r s skip) ->
  matches r (group0 m) /\ (exists pre post, s = pre ++ group0 m ++ post) /\
  caps_ok P (groups m).
Proof.
  intros Hg. induction s as [|x s IH]; intros skip m Hin.
  - destruct skip; simpl in Hin; [|done].
    destruct (match_here r []) as [m'|] eqn:E; simpl in Hin; [|done].
    destruct Hin as [<-|[]].
    apply (match_here_sound P) in E as (? & (rest & ?) & ?); [|done].
    repeat split; auto. by exists [], rest.
  - assert (Htail : forall k, In m (scan r s k) ->
      matches r (group0 m) /\ (exists pre post, x :: s = pre ++ group0 m ++ post) /\
      caps_ok P (groups m)).
    { intros k Hk. apply IH in Hk as (? & (pre & post & ->) & ?).
      repeat split; auto. by exists (x :: pre), post. }
    destruct skip; simpl in Hin; [|eauto].
    destruct (match_here r (x :: s)) as [m'|] eqn:E; simpl in Hin; [|eauto].
    destruct Hin as [<-|Hin]; [|eauto].
    apply (match_here_sound P) in E as (? & (rest & ?) & ?); [|done].
    repeat split; auto. by exists [], rest.
Qed.

(** A character no text of the language holds. *)
Lemma emits_sound x r u : matches r u -> In x u -> emits x r = true.
Proof.
  induction 1 as [|a|cs y Hy|cs u Hne Hu|r1 r2 u1 u2 _ IH1 _ IH2
                 |r1 r2 u _ IH|r1 r2 u _ IH|i r u _ IH]; simpl; intros Hin.
  - done.
  - destruct Hin as [<-|[]]. apply Ascii.eqb_refl.
  - destruct Hin as [<-|[]]. done.
  - rewrite forallb_forall in Hu. auto.
  - apply in_app_or in Hin as [?|?]; apply orb_true_iff; auto.
  - apply orb_true_iff; auto.
  - apply orb_true_iff; auto.
  - auto.
Qed.

Lemma groups_avoid_ok x r :
  groups_avoid x r = true -> groups_ok (fun _ u => ~ In x u) r.
Proof.
  induction r as [| | | |r1 IH1 r2 IH2|r1 IH1 r2 IH2|i r1 IH1]; simpl; auto.
  - intros H. apply andb_prop in H as [? ?]; auto.
  - intros H. apply andb_prop in H as [? ?]; auto.
  - intros H. apply andb_prop in H as [Hn ?]. split; auto.
    intros u Hu Hin. apply (emits_sound x) in Hu; [|done].
    rewrite Hu in Hn. done.
Qed.

(** Every match starts with the literal prefix of the pattern. *)
Lemma literal_prefix_sound r u :
  matches r u -> exists rest, u = literal_prefix r ++ rest.
Proof.
  induction 1 as [|a|cs y Hy|cs u Hne Hu|r1 r2 u1 u2 H1 IH1 _ IH2
                 |r1 r2 u _ IH|r1 r2 u _ IH|i r u _ IH]; simpl;
    try (eexists; reflexivity).
  destruct r1; simpl; try (eexists; reflexivity). inversion H1; subst.
  destruct IH2 as [rest ->]. by exists rest.
Qed.

End re_facts.

(** ** Strings as lists of characters *)

Lemma list_of_append (a b : string) :
  list_ascii_of_string (a +:+ b) = list_ascii_of_string a ++ list_ascii_of_string b.
Proof. induction a as [|c a IH]; simpl; [done|]. by rewrite IH. Qed.

Lemma string_of_app (a b : list ascii) :
  string_of_list_ascii (a ++ b) = string_of_list_ascii a +:+ string_of_list_ascii b.
Proof. induction a as [|c a IH]; simpl; [done|]. by rewrite IH. Qed.

Lemma length_list_of (a : string) :
  length (list_ascii_of_string a) = String.length a.
Proof. induction a as [|c a IH]; simpl; [done|]. by rewrite IH. Qed.

Lemma list_of_inj (a b : string) :
  list_ascii_of_string a = list_ascii_of_string b -> a = b.
Proof.
  intros H. rewrite <- (string_of_list_ascii_of_string a), H.
  apply string_of_list_ascii_of_string.
Qed.

Lemma append_inv_tail (a b t : string) : a +:+ t = b +:+ t -> a = b.
Proof.
  intros H. apply list_of_inj. apply (f_equal list_ascii_of_string) in H.
  rewrite !list_of_append in H. by apply app_inv_tail in H.
Qed.

(** ** The steps of the script *)

Lemma size_pattern_compiles :
  re.compile "([0-9]+)(MB|GB|Mb|Gb)" = Some (size_regex, 2%nat).
Proof. vm_compute. reflexivity. Qed.

Lemma file_size_from_url_label u : file_size_from_url u = Ok (size_label u).
Proof.
  unfold file_size_from_url, re.search, size_label.
  rewrite size_pattern_compiles. by destruct (re.search_from _ _).
Qed.

Lemma probe_urls_filter w i mr urls sites :
  probe_urls w i mr urls sites =
    (sites ++ map (descriptor_for mr) (List.filter (is_alive w i) urls), None).
Proof.
  revert sites. induction urls as [|u urls IH]; intros sites; simpl.
  - by rewrite app_nil_r.
  - destruct (is_alive w i u); [|apply IH].
    rewrite file_size_from_url_label, IH. simpl. by rewrite <- app_assoc.
Qed.

Lemma try_mirror_entries w i mr sites :
  try_mirror w i mr sites = (sites ++ entries w i mr, snd (try_mirror w i mr [])).
Proof.
  unfold entries, try_mirror.
  destruct (requests.get w i (m_url mr)); simpl; [|by rewrite app_nil_r].
  destruct (re.findall (m_pattern mr) a); simpl; [|by rewrite app_nil_r].
  by rewrite !probe_urls_filter.
Qed.

Lemma entries_fetched w i mr text :
  requests.get w i (m_url mr) = Ok text ->
  entries w i mr =
    map (descriptor_for mr)
        (List.filter (is_alive w i) (hash_order w i (candidates mr text))).
Proof.
  intros Hget. unfold entries, try_mirror, candidates. rewrite Hget.
  destruct (re.findall (m_pattern mr) text) as [found|e]; simpl.
  - by rewrite probe_urls_filter.
  - assert (hash_order w i ∅ = []) as ->; [|done].
    apply Permutation_nil_r. rewrite hash_order_perm. by rewrite elements_empty.
Qed.

Lemma entries_failed w i mr e :
  requests.get w i (m_url mr) = Raise e ->
  try_mirror w i mr [] = ([], Some e).
Proof. intros Hget. unfold try_mirror. by rewrite Hget. Qed.

Lemma in_hash_order w i (X : gset string) u : In u (hash_order w i X) <-> u ∈ X.
Proof. rewrite <- list_elem_of_In, hash_order_perm. apply elem_of_elements. Qed.

Lemma NoDup_hash_order w i (X : gset string) : List.NoDup (hash_order w i X).
Proof. apply NoDup_ListNoDup. rewrite hash_order_perm. apply NoDup_elements. Qed.

Lemma visit_sites w i mr st : fst (visit w i mr st) = fst st ++ entries w i mr.
Proof.
  unfold visit. rewrite try_mirror_entries.
  by destruct (snd (try_mirror w i mr [])).
Qed.

Lemma visit_all_sites w pages : forall i st,
  fst (visit_all w i pages st) = fst st ++ all_entries w i pages.
Proof.
  induction pages as [|mr pages IH]; intros i st; simpl.
  - by rewrite app_nil_r.
  - by rewrite IH, visit_sites, <- app_assoc.
Qed.

Lemma sites_of_all_entries pages w : sites_of pages w = all_entries w 0 pages.
Proof. unfold sites_of. by rewrite visit_all_sites. Qed.

Lemma in_all_entries w pages d : forall i,
  In d (all_entries w i pages) <->
  exists j mr, pages !! j = Some mr /\ In d (entries w (i + j) mr).
Proof.
  induction pages as [|mr pages IH]; intros i; simpl.
  - split; [done|]. by intros (j & mr & ? & _).
  - rewrite in_app_iff, IH. split.
    + intros [H|(j & mr' & Hj & H)].
      * exists 0%nat, mr. by rewrite Nat.add_0_r.
      * exists (S j), mr'. by rewrite Nat.add_succ_r.
    + intros ([|j] & mr' & Hj & H); simpl in Hj.
      * injection Hj as <-. rewrite Nat.add_0_r in H. by left.
      * right. exists j, mr'. by rewrite Nat.add_succ_r in H.
Qed.

Lemma main_on_completed pages w :
  fs_open w "../sites.jsonc" = Ok tt ->
  main_on pages w =
    mkOutcome (printed pages w ++ [summary_line (length (sites_of pages w))])
              (<["../sites.jsonc" := json.dump (map to_object (sites_of pages w)) 2]>
                 (fs_files w))
              None.
Proof. intros H. unfold main_on. by rewrite H. Qed.

Lemma main_on_aborted pages w e :
  fs_open w "../sites.jsonc" = Raise e ->
  main_on pages w = mkOutcome (printed pages w) (fs_files w) (Some e).
Proof. intros H. unfold main_on. by rewrite H. Qed.

Lemma main_on_uncaught pages w :
  uncaught (main_on pages w) = None <-> fs_open w "../sites.jsonc" = Ok tt.
Proof.
  destruct (fs_open w "../sites.jsonc") as [[]|e] eqn:H.
  - by rewrite main_on_completed.
  - by rewrite (main_on_aborted _ _ e).
Qed.

Lemma in_sites_of pages w d :
  In d (sites_of pages w) <->
  exists i mr, pages !! i = Some mr /\ In d (entries w i mr).
Proof. rewrite sites_of_all_entries. apply in_all_entries. Qed.

(** ** The provider table *)

Lemma mirror_pages_fit : forallb pattern_fit mirror_pages = true.
Proof. vm_compute. reflexivity. Qed.

(** No pattern handed to [findall] has more than one group. *)
Lemma mirror_patterns_groups :
  Forall (fun mr => exists r n, re.compile (m_pattern mr) = Some (r, n) /\ (n <= 1)%nat)
         mirror_pages.
Proof.
  apply Forall_forall. intros mr Hmr.
  pose proof mirror_pages_fit as Hfit. rewrite forallb_forall in Hfit.
  apply list_elem_of_In, Hfit in Hmr. unfold pattern_fit in Hmr.
  destruct (re.compile (m_pattern mr)) as [[r n]|]; [|done].
  exists r, n. split; [done|].
  apply orb_true_iff in Hmr as [H|H].
  - apply Nat.eqb_eq in H. lia.
  - apply andb_prop in H as [H _]. apply Nat.eqb_eq in H. lia.
Qed.

(** Every match of a pattern of the table starts with a literal character. *)
Lemma mirror_patterns_nonempty :
  Forall (fun mr => forall r n, re.compile (m_pattern mr) = Some (r, n) ->
                                ~ re_spec.matches r [])
         mirror_pages.
Proof.
  assert (H : forallb (fun mr => match prefix_of_pattern mr with [] => false | _ => true end)
                      mirror_pages = true) by (vm_compute; reflexivity).
  rewrite forallb_forall in H. apply Forall_forall. intros mr Hmr r n Hc Hm.
  apply list_elem_of_In, H in Hmr. unfold prefix_of_pattern in Hmr. rewrite Hc in Hmr.
  apply re_facts.literal_prefix_sound in Hm as [rest Hm].
  destruct (re_spec.literal_prefix r); [done|discriminate].
Qed.

Lemma mirror_names_distinct : NoDup (m_name <$> mirror_pages).
Proof. apply (bool_decide_unpack _). vm_compute. reflexivity. Qed.

Lemma lookup_fit i mr : mirror_pages !! i = Some mr -> pattern_fit mr = true.
Proof.
  intros Hi. pose proof mirror_pages_fit as Hfit. rewrite forallb_forall in Hfit.
  apply Hfit, list_elem_of_In, list_elem_of_lookup. eauto.
Qed.

(** ** Candidates and entries *)

Lemma has_scheme_colon u :
  requests.has_scheme u = true -> In ":"%char (list_ascii_of_string u).
Proof.
  unfold requests.has_scheme. rewrite existsb_exists.
  intros (x & Hx & E). apply Ascii.eqb_eq in E. by subst.
Qed.

(** A candidate of a fit pattern is a whole match of it, or is a captured
    piece that [requests] refuses. *)
Lemma candidate_fit mr text u :
  pattern_fit mr = true -> u ∈ candidates mr text ->
  (groupless mr = true /\ re_spec.full_match (m_pattern mr) u) \/
  (groupless mr = false /\ requests.has_scheme u = false).
Proof.
  unfold pattern_fit, candidates, groupless, re.findall, re_spec.full_match.
  destruct (re.compile (m_pattern mr)) as [[r n]|] eqn:Hc; [|done].
  intros Hfit Hu. apply elem_of_list_to_set, list_elem_of_In, in_map_iff in Hu
    as (m & <- & Hm).
  destruct (n =? 0)%nat eqn:Hn.
  - left. split; [done|]. exists r, n. split; [done|].
    apply (re_facts.scan_sound (fun _ _ => True)) in Hm as (Hm & _);
      [|apply re_facts.groups_ok_True].
    unfold re.group. by rewrite list_ascii_of_string_of_list_ascii.
  - right. split; [done|]. simpl in Hfit. apply andb_prop in Hfit as [_ Hav].
    apply re_facts.groups_avoid_ok in Hav.
    apply (re_facts.scan_sound _ _ Hav) in Hm as (_ & _ & Hcaps).
    destruct (requests.has_scheme (re.group_text m 1)) eqn:Hs; [|done].
    apply has_scheme_colon in Hs. unfold re.group_text in Hs.
    rewrite list_ascii_of_string_of_list_ascii in Hs.
    destruct (re.groups m !! 1%nat) as [t|] eqn:Ht; simpl in Hs; [|done].
    by apply Hcaps in Ht.
Qed.

Lemma is_alive_scheme w i u : is_alive w i u = true -> requests.has_scheme u = true.
Proof. unfold is_alive, requests.head. by destruct (requests.has_scheme u). Qed.

(** What an entry of the [i]-th provider is. *)
Lemma in_entries w i mr d :
  In d (entries w i mr) <->
  exists text u, requests.get w i (m_url mr) = Ok text /\ u ∈ candidates mr text /\
                 is_alive w i u = true /\ d = descriptor_for mr u.
Proof.
  destruct (requests.get w i (m_url mr)) as [text|e] eqn:Hget.
  - rewrite (entries_fetched _ _ _ _ Hget), in_map_iff. split.
    + intros (u & <- & Hu). apply filter_In in Hu as [Hu Ha].
      apply in_hash_order in Hu. by exists text, u.
    + intros (text' & u & [= <-] & Hu & Ha & ->). exists u. split; [done|].
      apply filter_In. split; [|done]. by apply in_hash_order.
  - unfold entries. rewrite (entries_failed _ _ _ _ Hget). simpl.
    split; [done|]. by intros (? & ? & ? & _).
Qed.

Lemma entry_fit w i mr d :
  pattern_fit mr = true -> In d (entries w i mr) ->
  re_spec.full_match (m_pattern mr) (url d) /\ is_alive w i (url d) = true /\
  d = descriptor_for mr (url d).
Proof.
  intros Hfit Hd. apply in_entries in Hd as (text & u & _ & Hu & Ha & ->). simpl.
  apply (candidate_fit _ _ _ Hfit) in Hu as [[_ Hm]|[_ Hs]]; [done|].
  apply is_alive_scheme in Ha. congruence.
Qed.

Lemma all_entries_app w a b : forall i,
  all_entries w i (a ++ b) = all_entries w i a ++ all_entries w (i + length a) b.
Proof.
  induction a as [|mr a IH]; intros i; simpl.
  - by rewrite Nat.add_0_r.
  - by rewrite IH, <- app_assoc, Nat.add_succ_r.
Qed.

Lemma name_determines_provider i j mri mrj :
  mirror_pages !! i = Some mri -> mirror_pages !! j = Some mrj ->
  m_name mri = m_name mrj -> i = j.
Proof.
  intros Hi Hj Hn.
  apply (NoDup_lookup _ _ _ (m_name mri) mirror_names_distinct);
    rewrite list_lookup_fmap; [by rewrite Hi|by rewrite Hj, Hn].
Qed.

(** ** The claims *)

(** C1 (fails on the code).  For a provider whose pattern has a group,
    [re.findall] returns the text of the group and not the matched URL:
    from the page text [http://proof.ovh.net/files/1Gb.dat] the OVH France
    provider extracts the single candidate [dat], although the URL itself
    is a full match of the pattern and [dat] is not. *)
Theorem findall_returns_group_text :
  exists mr, mirror_pages !! 2%nat = Some mr /\ m_name mr = "OVH France" /\
    re.findall (m_pattern mr) "http://proof.ovh.net/files/1Gb.dat" = Ok ["dat"] /\
    candidates mr "http://proof.ovh.net/files/1Gb.dat" = {[ "dat" ]} /\
    re_spec.full_match (m_pattern mr) "http://proof.ovh.net/files/1Gb.dat" /\
    ~ re_spec.full_match (m_pattern mr) "dat".
Proof.
  eexists. split; [reflexivity|]. split; [reflexivity|].
  assert (Hf : re.findall "http://proof\.ovh\.net/files/[0-9A-Za-z]+\.(dat|zip)"
                 "http://proof.ovh.net/files/1Gb.dat" = Ok ["dat"])
    by (vm_compute; reflexivity).
  split; [exact Hf|]. split.
  { unfold candidates. simpl m_pattern. rewrite Hf. simpl. set_solver. }
  destruct (re.compile "http://proof\.ovh\.net/files/[0-9A-Za-z]+\.(dat|zip)")
    as [[r n]|] eqn:Hc; [|by vm_compute in Hc].
  split.
  - exists r, n. split; [exact Hc|].
    destruct (re.match_here r (list_ascii_of_string "http://proof.ovh.net/files/1Gb.dat"))
      as [m|] eqn:Hm.
    + assert (re.group0 m = list_ascii_of_string "http://proof.ovh.net/files/1Gb.dat")
        as <-; [|by apply re_facts.match_here_match in Hm as [? _]].
      vm_compute in Hc. injection Hc as <- <-. vm_compute in Hm. by injection Hm as <-.
    + vm_compute in Hc. injection Hc as <- <-. by vm_compute in Hm.
  - intros (r' & n' & Hc' & Hm). simpl in Hc'. rewrite Hc in Hc'. injection Hc' as <- <-.
    apply re_facts.literal_prefix_sound in Hm as [rest Hm].
    vm_compute in Hc. injection Hc as <- <-. by vm_compute in Hm.
Qed.

(** C2.  Every descriptor of the accumulated list [sites] has a [url] that
    is a full match of the pattern of the provider it was built for, and
    the probe of that URL, made while that provider was processed, returned
    200. *)
Theorem descriptor_invariant (w : world) (d : descriptor) :
  In d (sites_of mirror_pages w) ->
  exists i mr, mirror_pages !! i = Some mr /\
    re_spec.full_match (m_pattern mr) (url d) /\
    is_alive w i (url d) = true /\
    requests.head w i (url d) = Ok 200%Z.
Proof.
  intros Hd. apply in_sites_of in Hd as (i & mr & Hi & Hd).
  apply entry_fit in Hd as (Hm & Ha & _); [|by eapply lookup_fit].
  exists i, mr. repeat split; try done.
  unfold is_alive in Ha. destruct (requests.head w i (url d)) as [st|]; [|done].
  apply Z.eqb_eq in Ha. by subst.
Qed.

Lemma descriptor_invariant_witness :
  let d := mkDescriptor "Hetzner Germany 100MB" hetzner_100MB "DE" in
  In d (sites_of mirror_pages world_hetzner_twice) /\
  exists i mr, mirror_pages !! i = Some mr /\
    re_spec.full_match (m_pattern mr) (url d) /\
    is_alive world_hetzner_twice i (url d) = true /\
    requests.head world_hetzner_twice i (url d) = Ok 200%Z.
Proof.
  intros d.
  assert (H : In d (sites_of mirror_pages world_hetzner_twice))
    by (vm_compute; left; reflexivity).
  split; [exact H|exact (descriptor_invariant world_hetzner_twice d H)].
Defined.

(** C3.  For a candidate URL [u] extracted for the [i]-th provider, the
    descriptor built for [u] is in the final list exactly when the probe of
    [u] succeeds; it is the only descriptor that provider builds for [u];
    and the list only grows: what is accumulated after the first [k]
    providers is a prefix of the final list. *)
Theorem descriptor_iff_alive (w : world) (i : nat) (mr : mirror) (text u : string) :
  mirror_pages !! i = Some mr ->
  requests.get w i (m_url mr) = Ok text ->
  u ∈ candidates mr text ->
  (In (descriptor_for mr u) (sites_of mirror_pages w) <-> is_alive w i u = true) /\
  (forall d, In d (entries w i mr) -> url d = u -> d = descriptor_for mr u) /\
  (forall k, sites_of (take k mirror_pages) w `prefix_of` sites_of mirror_pages w).
Proof.
  intros Hi Hget Hu. split; [|split].
  - split.
    + intros Hd. apply in_sites_of in Hd as (j & mrj & Hj & Hd).
      apply entry_fit in Hd as (_ & Ha & Hd); [|by eapply lookup_fit].
      simpl in Ha, Hd. injection Hd as Hn _.
      apply append_inv_tail in Hn.
      by rewrite (name_determines_provider i j mr mrj).
    + intros Ha. apply in_sites_of. exists i, mr. split; [done|].
      apply in_entries. by exists text, u.
  - intros d Hd <-. by apply entry_fit in Hd as (_ & _ & Hd); [|by eapply lookup_fit].
  - intros k. rewrite !sites_of_all_entries.
    rewrite <- (take_drop k mirror_pages) at 2. rewrite all_entries_app.
    by eexists.
Qed.

Lemma descriptor_iff_alive_witness :
  mirror_pages !! 0%nat = Some hetzner /\
  (In (descriptor_for hetzner hetzner_100MB)
      (sites_of mirror_pages world_hetzner_twice) <->
   is_alive world_hetzner_twice 0 hetzner_100MB = true).
Proof.
  split; [reflexivity|].
  refine (proj1 (descriptor_iff_alive world_hetzner_twice 0 hetzner
                   (hetzner_100MB +:+ " " +:+ hetzner_100MB) hetzner_100MB _ _ _)).
  - reflexivity.
  - reflexivity.
  - vm_compute. reflexivity.
Defined.

(** C6.  [is_alive] answers true exactly when the HEAD request returns
    with status 200; any other status and any exception give false. *)
Theorem is_alive_iff_200 (w : world) (i : nat) (u : string) :
  (is_alive w i u = true <-> requests.head w i u = Ok 200%Z) /\
  (forall status, requests.head w i u = Ok status -> status <> 200%Z ->
                  is_alive w i u = false) /\
  (forall e, requests.head w i u = Raise e -> is_alive w i u = false).
Proof.
  unfold is_alive. destruct (requests.head w i u) as [st|e]; repeat split; try done.
  - intros H. apply Z.eqb_eq in H. by subst.
  - intros [= ->]. done.
  - intros st' [= <-] Hne. by apply Z.eqb_neq.
Qed.

(** ** Deduplication *)

Lemma compatible_common a : forall b r1 r2, a ++ r1 = b ++ r2 -> compatible a b = true.
Proof.
  induction a as [|x a IH]; intros [|y b] r1 r2 H; simpl in *; try done.
  injection H as -> H. rewrite Ascii.eqb_refl. simpl. eauto.
Qed.

Lemma full_match_prefix mr u :
  re_spec.full_match (m_pattern mr) u ->
  exists rest, list_ascii_of_string u = prefix_of_pattern mr ++ rest.
Proof.
  intros (r & n & Hc & Hm). unfold prefix_of_pattern. rewrite Hc.
  by apply re_facts.literal_prefix_sound.
Qed.

Lemma urls_of_descriptors mr (l : list string) :
  url <$> map (descriptor_for mr) l = l.
Proof. induction l as [|u l IH]; [done|]. simpl. f_equal. exact IH. Qed.

Lemma entries_urls_NoDup w i mr : NoDup (url <$> entries w i mr).
Proof.
  destruct (requests.get w i (m_url mr)) as [text|e] eqn:Hget.
  - rewrite (entries_fetched _ _ _ _ Hget).
    rewrite urls_of_descriptors.
    apply NoDup_ListNoDup, List.NoDup_filter, NoDup_hash_order.
  - unfold entries. rewrite (entries_failed _ _ _ _ Hget). constructor.
Qed.

Lemma all_entries_urls_NoDup w pages : forall i,
  forallb pattern_fit pages = true -> distinct_prefixes pages = true ->
  NoDup (url <$> all_entries w i pages).
Proof.
  induction pages as [|mr pages IH]; intros i Hfit Hdis; simpl in *.
  - constructor.
  - apply andb_prop in Hfit as [Hmr Hfit]. apply andb_prop in Hdis as [Hfresh Hdis].
    rewrite fmap_app. apply NoDup_app. split; [apply entries_urls_NoDup|].
    split; [|by apply IH].
    intros u Hu Hu'.
    apply list_elem_of_fmap in Hu as (d & -> & Hd).
    apply list_elem_of_fmap in Hu' as (d' & Heq & Hd').
    apply list_elem_of_In, entry_fit in Hd as (Hm & _); [|done].
    apply list_elem_of_In, in_all_entries in Hd' as (j & mr' & Hj & Hd').
    rewrite forallb_forall in Hfit, Hfresh.
    assert (In mr' pages) as Hin by (apply list_elem_of_In, list_elem_of_lookup; eauto).
    apply entry_fit in Hd' as (Hm' & _); [|by apply Hfit].
    rewrite <- Heq in Hm'.
    apply full_match_prefix in Hm as [rest Hm], Hm' as [rest' Hm'].
    rewrite Hm in Hm'. apply compatible_common in Hm'.
    apply Hfresh in Hin. rewrite Hm' in Hin. done.
Qed.

Lemma mirror_prefixes_distinct : distinct_prefixes mirror_pages = true.
Proof. vm_compute. reflexivity. Qed.

Lemma is_alive_200 w i u : requests.head w i u = Ok 200%Z -> is_alive w i u = true.
Proof. intros H. unfold is_alive. by rewrite H. Qed.

(** C4.  The final list never holds two descriptors with the same URL.
    And when the page of Hetzner Germany holds the URL
    [https://speed.hetzner.de/100MB.bin] twice and nothing else that matches,
    and the probe of that URL returns 200, that provider contributes exactly
    one descriptor, with name [Hetzner Germany 100MB] and country [DE]; run
    over that provider alone, the written document is that one object. *)
Theorem no_duplicate_descriptors :
  (forall w, NoDup (url <$> sites_of mirror_pages w)) /\
  (forall w text,
     requests.get w 0 (m_url hetzner) = Ok text ->
     re.findall (m_pattern hetzner) text = Ok [hetzner_100MB; hetzner_100MB] ->
     requests.head w 0 hetzner_100MB = Ok 200%Z ->
     let d := mkDescriptor "Hetzner Germany 100MB" hetzner_100MB "DE" in
     mirror_pages !! 0%nat = Some hetzner /\
     entries w 0 hetzner = [d] /\
     sites_of [hetzner] w = [d] /\
     (fs_open w "../sites.jsonc" = Ok tt ->
      files (main_on [hetzner] w) !! "../sites.jsonc" = Some hetzner_document)).
Proof.
  split.
  - intros w. rewrite sites_of_all_entries.
    apply all_entries_urls_NoDup;
      [apply mirror_pages_fit|apply mirror_prefixes_distinct].
  - intros w text Hget Hfound Hhead d.
    assert (He : entries w 0 hetzner = [d]).
    { rewrite (entries_fetched _ _ _ _ Hget). unfold candidates. rewrite Hfound.
      assert (list_to_set [hetzner_100MB; hetzner_100MB] = ({[hetzner_100MB]} : gset string))
        as -> by set_solver.
      assert (hash_order w 0 {[hetzner_100MB]} = [hetzner_100MB]) as ->.
      { apply Permutation_singleton_r. rewrite hash_order_perm.
        by rewrite elements_singleton. }
      simpl. rewrite (is_alive_200 _ _ _ Hhead). simpl.
      unfold descriptor_for, d. f_equal. }
    assert (Hs : sites_of [hetzner] w = [d]).
    { rewrite sites_of_all_entries. simpl. by rewrite He. }
    repeat split; try done.
    intros Hopen. rewrite (main_on_completed _ _ Hopen). cbn [files].
    rewrite lookup_insert_eq, Hs. f_equal.
Qed.

Lemma no_duplicate_descriptors_witness :
  entries world_hetzner_twice 0 hetzner
    = [mkDescriptor "Hetzner Germany 100MB" hetzner_100MB "DE"] /\
  files (main_on [hetzner] world_hetzner_twice) !! "../sites.jsonc"
    = Some hetzner_document.
Proof.
  pose proof (proj2 no_duplicate_descriptors world_hetzner_twice
                (hetzner_100MB +:+ " " +:+ hetzner_100MB)) as H.
  destruct H as (_ & He & _ & Hf).
  - reflexivity.
  - vm_compute. reflexivity.
  - reflexivity.
  - split; [exact He|]. apply Hf. reflexivity.
Defined.

(** ** What is printed, and the writer *)

Lemma visit_failed w i mr e st :
  requests.get w i (m_url mr) = Raise e ->
  visit w i mr st = (fst st, snd st ++ [failure_line mr e]).
Proof. intros Hget. unfold visit, try_mirror. by rewrite Hget. Qed.

Lemma visit_all_keeps_lines w pages line : forall i st,
  In line (snd st) -> In line (snd (visit_all w i pages st)).
Proof.
  induction pages as [|mr pages IH]; intros i st Hin; simpl; [done|].
  apply IH. unfold visit.
  destruct (try_mirror w i mr (fst st)) as [sites [e|]]; simpl; [|done].
  apply in_app_iff. by left.
Qed.

Lemma visit_all_reports w pages : forall i st j mr e,
  pages !! j = Some mr -> requests.get w (i + j) (m_url mr) = Raise e ->
  In (failure_line mr e) (snd (visit_all w i pages st)).
Proof.
  induction pages as [|mr' pages IH]; intros i st [|j] mr e Hj Hget;
    simpl in *; try done.
  - injection Hj as ->. rewrite Nat.add_0_r in Hget.
    apply visit_all_keeps_lines. rewrite (visit_failed _ _ _ _ _ Hget). simpl.
    apply in_app_iff. right. by left.
  - apply (IH (S i) _ j mr e Hj). by rewrite Nat.add_succ_r in Hget.
Qed.

Lemma printed_in_stdout pages w line :
  In line (printed pages w) -> In line (stdout (main_on pages w)).
Proof.
  intros Hin. unfold main_on. fold (printed pages w).
  destruct (fs_open w "../sites.jsonc"); simpl; [|done].
  apply in_app_iff. by left.
Qed.

(** C5.  When the fetch of the [i]-th provider's page raises, the turn of
    the loop leaves [sites] as it was and prints the failure; the line is
    on standard output at the end of the run; that provider contributes no
    descriptor; every live candidate of every provider whose page was fetched
    is in the final list; and, the output file being writable, the run ends
    without exception, having written that list. *)
Theorem fetch_failure_is_isolated (w : world) (i : nat) (mr : mirror) (e : string) :
  mirror_pages !! i = Some mr ->
  requests.get w i (m_url mr) = Raise e ->
  (forall st, visit w i mr st = (fst st, snd st ++ [failure_line mr e])) /\
  In (failure_line mr e) (stdout (main w)) /\
  entries w i mr = [] /\
  (forall j mrj text u,
     mirror_pages !! j = Some mrj -> requests.get w j (m_url mrj) = Ok text ->
     u ∈ candidates mrj text -> is_alive w j u = true ->
     In (descriptor_for mrj u) (sites_of mirror_pages w)) /\
  (fs_open w "../sites.jsonc" = Ok tt ->
     uncaught (main w) = None /\
     files (main w) !! "../sites.jsonc"
       = Some (json.dump (map to_object (sites_of mirror_pages w)) 2)).
Proof.
  intros Hi Hget. repeat split.
  - intros st. by apply visit_failed.
  - apply printed_in_stdout. by apply (visit_all_reports w mirror_pages 0 _ i mr e).
  - unfold entries. by rewrite (entries_failed _ _ _ _ Hget).
  - intros j mrj text u Hj Hgetj Hu Ha. apply in_sites_of. exists j, mrj.
    split; [done|]. apply in_entries. by exists text, u.
  - unfold main. by rewrite (main_on_completed _ _ H).
  - unfold main. rewrite (main_on_completed _ _ H). cbn [files].
    by rewrite lookup_insert_eq.
Qed.

Lemma fetch_failure_is_isolated_witness :
  In "Failed to fetch http://ipv4.download.thinkbroadband.com/: timed out"
     (stdout (main world_hetzner_twice)) /\
  In (descriptor_for hetzner hetzner_100MB) (sites_of mirror_pages world_hetzner_twice) /\
  uncaught (main world_hetzner_twice) = None.
Proof.
  destruct (fetch_failure_is_isolated world_hetzner_twice 1
              (mkMirror "ThinkBroadband UK" "UK" "http://ipv4.download.thinkbroadband.com/"
                 "http://ipv4\.download\.thinkbroadband\.com/[0-9A-Za-z]+\.zip")
              "timed out" eq_refl eq_refl) as (_ & Hline & _ & Hkept & Hdone).
  split; [exact Hline|]. split.
  - apply (Hkept 0%nat hetzner (hetzner_100MB +:+ " " +:+ hetzner_100MB)).
    + reflexivity.
    + reflexivity.
    + vm_compute. reflexivity.
    + reflexivity.
  - apply Hdone. reflexivity.
Defined.

(** ** Size tokens and the leftmost match *)

Module token_facts.
Import re re_spec.

Ltac invert H := inversion H; subst; clear H.

Lemma matches_two a b : matches (Cat (Chr a) (Cat (Chr b) Eps)) [a; b].
Proof. change [a; b] with ([a] ++ [b] ++ []). repeat constructor. Qed.

Lemma token_matches t : matches size_regex t <-> token t.
Proof.
  split.
  - intros H. unfold size_regex in H.
    repeat match goal with
           | H : matches (Cat _ _) _ |- _ => invert H
           | H : matches (Group _ _) _ |- _ => invert H
           | H : matches (Alt _ _) _ |- _ => invert H
           | H : matches (Plus _) _ |- _ => invert H
           | H : matches (Chr _) _ |- _ => invert H
           | H : matches Eps _ |- _ => invert H
           end;
      rewrite !app_nil_r; eexists _, _; (split; [reflexivity|]);
      (split; [done|]); (split; [done|]); simpl; tauto.
  - intros (d & u & -> & Hne & Hd & Hu). unfold size_regex.
    rewrite <- (app_nil_r u), <- (app_nil_r d).
    apply M_Cat; [apply M_Group, M_Cat; [by apply M_Plus|apply M_Eps]|].
    apply M_Cat; [|apply M_Eps]. apply M_Group.
    assert (Hl : u = list_ascii_of_string (string_of_list_ascii u))
      by (by rewrite list_ascii_of_string_of_list_ascii).
    rewrite Hl. simpl in Hu.
    destruct Hu as [<-|[<-|[<-|[<-|[]]]]]; simpl.
    + apply M_AltL, matches_two.
    + apply M_AltR, M_AltL, matches_two.
    + apply M_AltR, M_AltR, M_AltL, matches_two.
    + apply M_AltR, M_AltR, M_AltR, matches_two.
Qed.

Lemma digits_then_rest d1 : forall d2 x1 x2,
  forallb is_digit d1 = true -> forallb is_digit d2 = true ->
  starts_nondigit x1 -> starts_nondigit x2 ->
  d1 ++ x1 = d2 ++ x2 -> d1 = d2 /\ x1 = x2.
Proof.
  induction d1 as [|c d1 IH]; intros [|c2 d2] x1 x2 H1 H2 N1 N2 E; simpl in *.
  - done.
  - subst x1. simpl in N1. apply andb_prop in H2 as [H2 _]. congruence.
  - subst x2. simpl in N2. apply andb_prop in H1 as [H1 _]. congruence.
  - injection E as -> E. apply andb_prop in H1 as [_ H1]. apply andb_prop in H2 as [_ H2].
    destruct (IH d2 x1 x2 H1 H2 N1 N2 E) as [-> ->]. done.
Qed.

Lemma unit_starts_nondigit u r :
  In (string_of_list_ascii u) units -> starts_nondigit (u ++ r).
Proof.
  intros Hu.
  assert (Hl : u = list_ascii_of_string (string_of_list_ascii u))
    by (by rewrite list_ascii_of_string_of_list_ascii).
  rewrite Hl. simpl in Hu. destruct Hu as [<-|[<-|[<-|[<-|[]]]]]; reflexivity.
Qed.

Lemma unit_prefix_unique u1 u2 r1 r2 :
  In (string_of_list_ascii u1) units -> In (string_of_list_ascii u2) units ->
  u1 ++ r1 = u2 ++ r2 -> u1 = u2.
Proof.
  intros H1 H2.
  rewrite <- (list_ascii_of_string_of_list_ascii u1),
          <- (list_ascii_of_string_of_list_ascii u2).
  simpl in H1, H2.
  destruct H1 as [<-|[<-|[<-|[<-|[]]]]], H2 as [<-|[<-|[<-|[<-|[]]]]];
    simpl; intros E; congruence.
Qed.

Lemma size_token_nonempty : ~ matches size_regex [].
Proof.
  intros H. apply token_matches in H as (d & u & E & Hne & _).
  symmetry in E. by apply app_eq_nil in E as [-> _].
Qed.

(** At a given position at most one size token starts. *)
Lemma token_prefix_unique t1 t2 r1 r2 :
  token t1 -> token t2 -> t1 ++ r1 = t2 ++ r2 -> t1 = t2.
Proof.
  intros (d1 & u1 & -> & _ & Hd1 & Hu1) (d2 & u2 & -> & _ & Hd2 & Hu2) E.
  rewrite <- !app_assoc in E.
  apply digits_then_rest in E as [-> E]; auto using unit_starts_nondigit.
  by rewrite (unit_prefix_unique _ _ _ _ Hu1 Hu2 E).
Qed.

Lemma at_position_drop L k t :
  at_position L k t -> exists post, drop k L = t ++ post.
Proof. intros (pre & post & -> & <-). exists post. by rewrite drop_app_length. Qed.

Lemma search_from_here r s m : match_here r s = Some m -> search_from r s = Some m.
Proof. intros H. destruct s; simpl; by rewrite H. Qed.

Lemma nothing_before r L n :
  (forall j t, (j < n)%nat -> matches r t -> ~ at_position L j t) ->
  (n <= length L)%nat ->
  forall j, (j < n)%nat -> match_here r (drop j L) = None.
Proof.
  intros Hfirst Hn j Hj. destruct (match_here r (drop j L)) as [m|] eqn:Hm; [|done].
  apply re_facts.match_here_match in Hm as (Hm & rest & Hrest).
  destruct (Hfirst j (group0 m) Hj Hm). exists (take j L), rest.
  split; [by rewrite <- Hrest, take_drop|]. rewrite length_take. lia.
Qed.

(** [search_from] finds the match that starts first, when a position has
    only one match. *)
Lemma search_from_first r pre t post :
  matches r t ->
  (forall j t', (j < length pre)%nat -> matches r t' -> ~ at_position (pre ++ t ++ post) j t') ->
  (forall t' rest, matches r t' -> t' ++ rest = t ++ post -> t' = t) ->
  exists m, search_from r (pre ++ t ++ post) = Some m /\ group0 m = t.
Proof.
  intros Ht Hfirst Huniq.
  rewrite re_facts.search_from_skip.
  - destruct (re_facts.match_here_complete r t post Ht) as [m Hm].
    exists m. split; [by apply search_from_here|].
    apply re_facts.match_here_match in Hm as (Hm & rest & Hrest).
    by apply (Huniq _ rest).
  - apply nothing_before; [done|]. rewrite length_app. lia.
Qed.

Lemma search_from_is_first r L m :
  search_from r L = Some m ->
  exists k, matches r (group0 m) /\ at_position L k (group0 m) /\
    forall j t, (j < k)%nat -> matches r t -> ~ at_position L j t.
Proof.
  intros H. apply re_facts.search_from_Some in H as (pre & Hm & (post & ->) & Hnone).
  apply re_facts.match_here_match in Hm as (Hm & _).
  exists (length pre). split; [done|]. split; [by exists pre, post|].
  intros j t Hj Ht Hat. apply at_position_drop in Hat as [post' Hat].
  by apply (re_facts.match_here_None r _ t post' (Hnone j Hj)).
Qed.

Lemma search_from_nowhere r L :
  search_from r L = None -> forall j t, matches r t -> ~ at_position L j t.
Proof.
  intros H j t Ht Hat. apply at_position_drop in Hat as [post Hat].
  by apply (re_facts.match_here_None r _ t post (re_facts.search_from_None r L H j)).
Qed.

(** From strings to lists of characters and back. *)

Lemma is_size_token_token t : is_size_token t <-> token (list_ascii_of_string t).
Proof.
  split.
  - intros (d & u & -> & Hne & Hd & Hu).
    exists (list_ascii_of_string d), (list_ascii_of_string u).
    rewrite list_of_append, string_of_list_ascii_of_string.
    repeat split; try done. by destruct d.
  - intros (d & u & E & Hne & Hd & Hu).
    exists (string_of_list_ascii d), (string_of_list_ascii u).
    rewrite list_ascii_of_string_of_list_ascii. repeat split; try done.
    + apply list_of_inj.
      by rewrite list_of_append, !list_ascii_of_string_of_list_ascii.
    + by destruct d.
Qed.

Lemma occurs_at_position s k t :
  occurs_at s k t <-> at_position (list_ascii_of_string s) k (list_ascii_of_string t).
Proof.
  split.
  - intros (pre & post & -> & <-).
    exists (list_ascii_of_string pre), (list_ascii_of_string post).
    by rewrite !list_of_append, length_list_of.
  - intros (pre & post & E & <-).
    exists (string_of_list_ascii pre), (string_of_list_ascii post). split.
    + apply list_of_inj.
      by rewrite !list_of_append, !list_ascii_of_string_of_list_ascii.
    + by rewrite <- length_list_of, list_ascii_of_string_of_list_ascii.
Qed.

Lemma token_of_match t :
  matches size_regex t -> is_size_token (string_of_list_ascii t).
Proof.
  intros H. apply is_size_token_token.
  rewrite list_ascii_of_string_of_list_ascii. by apply token_matches.
Qed.

Lemma match_of_token t :
  is_size_token t -> matches size_regex (list_ascii_of_string t).
Proof. intros H. by apply token_matches, is_size_token_token. Qed.

Lemma nothing_before_lists s k :
  (forall j t', (j < k)%nat -> is_size_token t' -> ~ occurs_at s j t') ->
  forall j t, (j < k)%nat -> matches size_regex t ->
              ~ at_position (list_ascii_of_string s) j t.
Proof.
  intros H j t Hj Ht Hat. apply (H j (string_of_list_ascii t) Hj).
  - by apply token_of_match.
  - apply occurs_at_position. by rewrite list_ascii_of_string_of_list_ascii.
Qed.

(** The label is the first size token, when there is one. *)
Lemma size_label_first u t : first_size_token u t -> size_label u = t.
Proof.
  intros (k & Ht & Hocc & Hfirst).
  pose proof (nothing_before_lists u k Hfirst) as Hfirst'.
  apply occurs_at_position in Hocc as (pre & post & E & <-).
  rewrite E in Hfirst'. unfold size_label. rewrite E.
  destruct (search_from_first size_regex pre (list_ascii_of_string t) post)
    as (m & -> & Hm); auto using match_of_token.
  - intros t' rest Ht' E'. apply (token_prefix_unique _ _ rest post); [| |done].
    + by apply token_matches.
    + by apply token_matches, match_of_token.
  - unfold group. rewrite Hm. apply string_of_list_ascii_of_string.
Qed.

Lemma size_label_search u :
  match search_from size_regex (list_ascii_of_string u) with
  | Some m => first_size_token u (size_label u)
  | None => ~ has_size_token u /\ size_label u = "file"
  end.
Proof.
  unfold size_label.
  destruct (search_from size_regex (list_ascii_of_string u)) as [m|] eqn:Hs.
  - apply search_from_is_first in Hs as (k & Hm & Hat & Hfirst).
    exists k. split; [by apply token_of_match|]. split.
    + apply occurs_at_position. unfold group.
      by rewrite list_ascii_of_string_of_list_ascii.
    + intros j t' Hj Ht' Hocc. apply (Hfirst j (list_ascii_of_string t') Hj).
      * by apply match_of_token.
      * by apply occurs_at_position.
  - split; [|done]. intros (k & t & Ht & Hocc).
    apply (search_from_nowhere _ _ Hs k (list_ascii_of_string t)).
    + by apply match_of_token.
    + by apply occurs_at_position.
Qed.

Lemma size_label_token u : has_size_token u -> first_size_token u (size_label u).
Proof.
  intros Hhas. pose proof (size_label_search u) as H.
  destruct (search_from size_regex (list_ascii_of_string u)); [done|].
  by destruct H.
Qed.

Lemma size_label_file u : ~ has_size_token u -> size_label u = "file".
Proof.
  intros Hno. pose proof (size_label_search u) as H.
  destruct (search_from size_regex (list_ascii_of_string u)); [|by destruct H].
  destruct H as (k & Ht & Hocc & _). destruct Hno. by exists k, (size_label u).
Qed.

Lemma size_label_cases u :
  (has_size_token u /\ first_size_token u (size_label u)) \/
  (~ has_size_token u /\ size_label u = "file").
Proof.
  pose proof (size_label_search u) as H.
  destruct (search_from size_regex (list_ascii_of_string u)); [left|right; done].
  split; [|done]. destruct H as (k & Ht & Hocc & _). by exists k, (size_label u).
Qed.

End token_facts.

(** ** Names *)

(** ** The leftmost token *)

Lemma app_split_left {A : Type} (a : list A) : forall pre x y,
  pre ++ x = a ++ y -> (length a <= length pre)%nat ->
  exists pre', pre = a ++ pre' /\ y = pre' ++ x.
Proof.
  induction a as [|c a IH]; intros pre x y E Hlen; simpl in *.
  - by exists pre.
  - destruct pre as [|p pre]; simpl in *; [lia|].
    injection E as -> E. destruct (IH pre x y E ltac:(lia)) as (pre' & -> & ->).
    by exists pre'.
Qed.

Lemma token_starts_with_digit t :
  is_size_token t -> exists c rest, t = String c rest /\ is_digit c = true.
Proof.
  intros (d & u & -> & Hne & Hd & _). destruct d as [|c d]; [done|].
  simpl in Hd. apply andb_prop in Hd as [Hc _]. by exists c, (d +:+ u).
Qed.

(** A token of [dir/file] that does not start in [dir] lies in [file]. *)
Lemma token_in_file dir file k t :
  is_size_token t -> occurs_at (dir +:+ "/" +:+ file) k t ->
  (String.length dir <= k)%nat -> has_size_token file.
Proof.
  intros Ht (pre & post & E & <-) Hk.
  apply (f_equal list_ascii_of_string) in E. rewrite !list_of_append in E.
  symmetry in E. apply app_split_left in E as (pre' & Hpre & E);
    [|by rewrite !length_list_of].
  destruct pre' as [|c pre']; simpl in E.
  - apply token_starts_with_digit in Ht as (c & rest & -> & Hc).
    simpl in E. injection E as <- _. by vm_compute in Hc.
  - injection E as _ E. exists (length pre'), t. split; [done|].
    exists (string_of_list_ascii pre'), post. split.
    + apply list_of_inj.
      by rewrite !list_of_append, list_ascii_of_string_of_list_ascii.
    + by rewrite <- length_list_of, list_ascii_of_string_of_list_ascii.
Qed.

(** C10.  The label is the size token that starts first in the URL, wherever
    it lies, and names the descriptor; a URL that holds a size token has a
    first one; and when the part before the last [/] holds a size token and
    the file name holds none, the label is a size token that starts in that
    part. *)
Theorem leftmost_token_is_used :
  (forall u t, first_size_token u t ->
     file_size_from_url u = Ok t /\
     forall w i mr d, In d (entries w i mr) -> url d = u ->
                      name d = m_name mr +:+ " " +:+ t) /\
  (forall u, has_size_token u -> exists t, first_size_token u t) /\
  (forall dir file, has_size_token dir -> ~ has_size_token file ->
     exists t k, file_size_from_url (dir +:+ "/" +:+ file) = Ok t /\
                 is_size_token t /\ (k < String.length dir)%nat /\
                 occurs_at (dir +:+ "/" +:+ file) k t).
Proof.
  split; [|split].
  - intros u t Hfirst. apply token_facts.size_label_first in Hfirst as <-.
    split; [apply file_size_from_url_label|].
    intros w i mr d Hd <-. by apply in_entries in Hd as (? & ? & _ & _ & _ & ->).
  - intros u Hhas. exists (size_label u). by apply token_facts.size_label_token.
  - intros dir file (k0 & t0 & Ht0 & pre & post & -> & _) Hfile.
    set (u := (pre +:+ t0 +:+ post) +:+ "/" +:+ file).
    assert (Hhas : has_size_token u).
    { exists (String.length pre), t0. split; [done|].
      exists pre, (post +:+ "/" +:+ file). split; [|done].
      apply list_of_inj. unfold u. rewrite !list_of_append.
      by rewrite <- !app_assoc. }
    destruct (token_facts.size_label_token u Hhas) as (k & Ht & Hocc & _).
    exists (size_label u), k. split; [apply file_size_from_url_label|].
    split; [done|]. split; [|done].
    destruct (Nat.lt_ge_cases k (String.length (pre +:+ t0 +:+ post))) as [|Hge];
      [done|].
    destruct Hfile. by apply (token_in_file _ _ _ _ Ht Hocc).
Qed.

Lemma leftmost_token_is_used_witness :
  has_size_token "http://10GB.example.net/pub/100MB.bin" /\
  file_size_from_url "http://10GB.example.net/pub/100MB.bin" = Ok "10GB".
Proof.
  assert (Hhas : has_size_token "http://10GB.example.net/pub/100MB.bin").
  { exists 7%nat, "10GB". split.
    - exists "10", "GB". repeat split; try done. simpl. tauto.
    - by exists "http://", ".example.net/pub/100MB.bin". }
  split; [exact Hhas|].
  apply (proj1 leftmost_token_is_used "http://10GB.example.net/pub/100MB.bin" "10GB").
  exact (token_facts.size_label_token _ Hhas).
Defined.

(** ** The class of the AWS pattern *)

Lemma matches_lit l : forall r u,
  re_spec.matches (lit l r) u -> exists u', u = l ++ u' /\ re_spec.matches r u'.
Proof.
  induction l as [|a l IH]; intros r u H; simpl in *.
  - by exists u.
  - inversion H as [| | | |r1 r2 u1 u2 H1 H2| | |]; subst.
    inversion H1; subst. destruct (IH _ _ H2) as (u' & -> & Hu'). by exists u'.
Qed.

Lemma aws_pattern_compiles :
  re.compile (m_pattern aws) =
    Some (lit (list_ascii_of_string "https://speedtest.s3.amazonaws.com/")
              (re.Cat (re.Plus aws_class) (lit (list_ascii_of_string ".bin") re.Eps)),
          0%nat).
Proof. vm_compute. reflexivity. Qed.

Lemma aws_class_chars c :
  re.in_cset aws_class c = is_digit c || is_upper c || Ascii.eqb c "a".
Proof. destruct c as [[] [] [] [] [] [] [] []]; reflexivity. Qed.

Lemma aws_class_lower c :
  is_lower c = true -> re.in_cset aws_class c = true -> c = "a"%char.
Proof.
  destruct c as [[] [] [] [] [] [] [] []]; vm_compute; intros; congruence.
Qed.

(** C8.  The pattern of AWS S3 US East holds the single class
    [[0-9A-ZaZ]], whose characters are the digits, the upper-case letters and
    [a]; so a URL [https://speedtest.s3.amazonaws.com/<stem>.bin] whose stem
    holds a lower-case letter other than [a] is a candidate for no page
    text, and the page text that is the URL with stem [test100MB] yields no
    candidate at all. *)
Theorem aws_class_misses_lowercase :
  mirror_pages !! 14%nat = Some aws /\
  (exists r, re.compile (m_pattern aws) = Some (r, 0%nat) /\ classes_of r = [aws_class]) /\
  (forall c, re.in_cset aws_class c = is_digit c || is_upper c || Ascii.eqb c "a") /\
  (forall stem text,
     (exists c, In c (list_ascii_of_string stem) /\ is_lower c = true /\ c <> "a"%char) ->
     "https://speedtest.s3.amazonaws.com/" +:+ stem +:+ ".bin" ∉ candidates aws text) /\
  re.findall (m_pattern aws) "https://speedtest.s3.amazonaws.com/test100MB.bin" = Ok [] /\
  candidates aws "https://speedtest.s3.amazonaws.com/test100MB.bin" = ∅.
Proof.
  split; [reflexivity|]. split.
  { eexists. split; [apply aws_pattern_compiles|]. vm_compute. reflexivity. }
  split; [apply aws_class_chars|]. split.
  - intros stem text (c & Hin & Hlow & Hna) Hcand.
    assert (Hfit : pattern_fit aws = true) by (vm_compute; reflexivity).
    destruct (candidate_fit _ _ _ Hfit Hcand) as [[_ (r & n & Hc & Hm)]|[Hg _]];
      [|by vm_compute in Hg].
    assert (Hr : r = lit (list_ascii_of_string "https://speedtest.s3.amazonaws.com/")
                       (re.Cat (re.Plus aws_class)
                               (lit (list_ascii_of_string ".bin") re.Eps)))
      by (rewrite aws_pattern_compiles in Hc; congruence).
    rewrite Hr, !list_of_append in Hm. clear Hr Hc.
    apply matches_lit in Hm as (u1 & E & Hm). apply app_inv_head in E. subst u1.
    inversion Hm as [| | | |r1 r2 v w Hv Hw E1 E2| | |]; subst.
    apply (matches_lit (list_ascii_of_string ".bin") re.Eps) in Hw as (w' & -> & Hw).
    inversion Hw; subst.
    rewrite app_nil_r in E2. apply app_inv_tail in E2. subst v.
    inversion Hv as [| | |cs v' Hne Hall| | | |]; subst.
    rewrite forallb_forall in Hall. by apply Hna, aws_class_lower, Hall.
  - assert (Hf : re.findall (m_pattern aws)
                   "https://speedtest.s3.amazonaws.com/test100MB.bin" = Ok [])
      by (vm_compute; reflexivity).
    split; [exact Hf|]. unfold candidates. by rewrite Hf.
Qed.

(** * Further properties of the script *)

(** ** Providers whose pattern has a group *)

Lemma distinct_prefixes_lookup pages : forall i j a b,
  distinct_prefixes pages = true -> pages !! i = Some a -> pages !! j = Some b ->
  (i < j)%nat -> compatible (prefix_of_pattern a) (prefix_of_pattern b) = false.
Proof.
  induction pages as [|mr pages IH]; intros i j a b Hd Hi Hj Hlt; [done|].
  simpl in Hd. apply andb_prop in Hd as [Hfresh Hd].
  destruct j as [|j]; [lia|]. simpl in Hj. destruct i as [|i]; simpl in Hi.
  - injection Hi as ->. rewrite forallb_forall in Hfresh.
    apply negb_true_iff, Hfresh, list_elem_of_In, list_elem_of_lookup. eauto.
  - apply (IH i j); auto. lia.
Qed.

(** A URL is a full match of the pattern of at most one provider. *)
Lemma pattern_owner_unique i j mri mrj u :
  mirror_pages !! i = Some mri -> mirror_pages !! j = Some mrj ->
  re_spec.full_match (m_pattern mri) u -> re_spec.full_match (m_pattern mrj) u ->
  i = j.
Proof.
  intros Hi Hj Hmi Hmj.
  apply full_match_prefix in Hmi as [ri Ei], Hmj as [rj Ej].
  destruct (Nat.lt_trichotomy i j) as [Hlt|[->|Hlt]]; [|done|].
  - pose proof (distinct_prefixes_lookup _ _ _ _ _ mirror_prefixes_distinct Hi Hj Hlt) as Hc.
    rewrite Ei in Ej. apply compatible_common in Ej. congruence.
  - pose proof (distinct_prefixes_lookup _ _ _ _ _ mirror_prefixes_distinct Hj Hi Hlt) as Hc.
    rewrite Ej in Ei. apply compatible_common in Ei. congruence.
Qed.

(** X1.  A provider whose pattern has a capturing group (OVH France and the
    four Leaseweb mirrors) never contributes a descriptor, whatever the
    network answers, and no URL that matches its pattern is ever in the final
    list. *)
Theorem grouped_providers_never_listed (w : world) (i : nat) (mr : mirror) :
  mirror_pages !! i = Some mr -> groupless mr = false ->
  entries w i mr = [] /\
  (forall d, In d (sites_of mirror_pages w) ->
             ~ re_spec.full_match (m_pattern mr) (url d)) /\
  In (m_name mr)
     ["OVH France"; "Leaseweb NL"; "Leaseweb DE"; "Leaseweb US"; "Leaseweb SG"].
Proof.
  intros Hi Hg.
  assert (He : entries w i mr = []).
  { destruct (entries w i mr) as [|d l] eqn:E; [done|].
    assert (Hd : In d (entries w i mr)) by (rewrite E; by left).
    apply in_entries in Hd as (text & u & _ & Hu & Ha & _).
    apply candidate_fit in Hu as [[Hg' _]|[_ Hs]]; [congruence| |by eapply lookup_fit].
    apply is_alive_scheme in Ha. congruence. }
  split; [done|]. split.
  - intros d Hd Hm. apply in_sites_of in Hd as (j & mrj & Hj & Hd).
    pose proof Hd as Hd'. apply entry_fit in Hd' as (Hmj & _); [|by eapply lookup_fit].
    assert (i = j) as <- by exact (pattern_owner_unique i j mr mrj (url d) Hi Hj Hm Hmj).
    rewrite Hi in Hj. injection Hj as <-. by rewrite He in Hd.
  - do 16 (destruct i as [|i]; [injection Hi as <-; vm_compute in Hg;
                                 try discriminate; simpl; tauto|]).
    done.
Qed.

Lemma grouped_providers_never_listed_witness :
  mirror_pages !! 2%nat = Some ovh /\ entries world_ovh_up 2 ovh = [].
Proof.
  split; [reflexivity|].
  apply (grouped_providers_never_listed world_ovh_up 2 ovh); reflexivity.
Defined.

(** ** The order of the final list *)

Lemma all_entries_order w pages : forall k l1 d1 l2 d2 l3,
  all_entries w k pages = l1 ++ d1 :: l2 ++ d2 :: l3 ->
  exists a b mra mrb, (a <= b)%nat /\ pages !! a = Some mra /\ pages !! b = Some mrb /\
    In d1 (entries w (k + a) mra) /\ In d2 (entries w (k + b) mrb).
Proof.
  induction pages as [|mr pages IH]; intros k l1 d1 l2 d2 l3 E; simpl in E.
  - by destruct l1.
  - apply app_eq_app in E as [l [[E1 E2]|[E1 E2]]].
    + destruct l as [|x l]; simpl in E2.
      * symmetry in E2.
        apply (IH (S k) []) in E2 as (a & b & mra & mrb & Hab & Ha & Hb & H1 & H2).
        exists (S a), (S b), mra, mrb. rewrite !Nat.add_succ_r.
        repeat split; auto. lia.
      * injection E2 as <- E2.
        assert (H1 : In d1 (entries w (k + 0) mr)).
        { rewrite Nat.add_0_r, E1. apply in_app_iff. right. by left. }
        assert (H2 : In d2 (l ++ all_entries w (S k) pages)).
        { rewrite <- E2. apply in_app_iff. right. by left. }
        apply in_app_iff in H2 as [H2|H2].
        -- exists 0%nat, 0%nat, mr, mr. repeat split; auto.
           rewrite Nat.add_0_r, E1. apply in_app_iff. right. by right.
        -- apply in_all_entries in H2 as (b & mrb & Hb & H2).
           exists 0%nat, (S b), mr, mrb. rewrite Nat.add_succ_r.
           repeat split; auto. lia.
    + apply (IH (S k)) in E2 as (a & b & mra & mrb & Hab & Ha & Hb & H1 & H2).
      exists (S a), (S b), mra, mrb. rewrite !Nat.add_succ_r.
      repeat split; auto. lia.
Qed.

(** X2.  The final list follows the order of the provider table: when a
    descriptor stands before another one, the provider whose pattern its URL
    matches does not come later in [mirror_pages] than the provider of the
    other. *)
Theorem sites_follow_table_order (w : world) (l1 l2 l3 : list descriptor)
    (d1 d2 : descriptor) (i j : nat) (mri mrj : mirror) :
  sites_of mirror_pages w = l1 ++ d1 :: l2 ++ d2 :: l3 ->
  mirror_pages !! i = Some mri -> mirror_pages !! j = Some mrj ->
  re_spec.full_match (m_pattern mri) (url d1) ->
  re_spec.full_match (m_pattern mrj) (url d2) ->
  (i <= j)%nat.
Proof.
  intros E Hi Hj Hmi Hmj. rewrite sites_of_all_entries in E.
  apply all_entries_order in E as (a & b & mra & mrb & Hab & Ha & Hb & H1 & H2).
  simpl in H1, H2.
  apply entry_fit in H1 as (H1 & _); [|by eapply lookup_fit].
  apply entry_fit in H2 as (H2 & _); [|by eapply lookup_fit].
  rewrite (pattern_owner_unique i a mri mra (url d1)); [|done..].
  rewrite (pattern_owner_unique j b mrj mrb (url d2)); done.
Qed.

Lemma sites_follow_table_order_witness :
  sites_of mirror_pages world_two_up
    = [descriptor_for hetzner hetzner_100MB;
       descriptor_for thinkbroadband thinkbroadband_1GB] /\
  (0 <= 1)%nat.
Proof.
  assert (E : sites_of mirror_pages world_two_up
              = [] ++ descriptor_for hetzner hetzner_100MB
                   :: [] ++ descriptor_for thinkbroadband thinkbroadband_1GB :: [])
    by (vm_compute; reflexivity).
  split; [exact E|].
  apply (sites_follow_table_order world_two_up _ _ _ _ _ 0 1 hetzner thinkbroadband E).
  - reflexivity.
  - reflexivity.
  - apply (entry_fit world_two_up 0 hetzner (descriptor_for hetzner hetzner_100MB)).
    + reflexivity.
    + vm_compute. left. reflexivity.
  - apply (entry_fit world_two_up 1 thinkbroadband
             (descriptor_for thinkbroadband thinkbroadband_1GB)).
    + reflexivity.
    + vm_compute. left. reflexivity.
Defined.

(** ** More on labels *)

Lemma length_append (a b : string) :
  String.length (a +:+ b) = (String.length a + String.length b)%nat.
Proof. by rewrite <- !length_list_of, list_of_append, length_app. Qed.

Lemma token_length t : is_size_token t -> (0 < String.length t)%nat.
Proof.
  intros Ht. apply token_starts_with_digit in Ht as (c & rest & -> & _). simpl. lia.
Qed.

Lemma digit_before_token c t :
  is_digit c = true -> is_size_token t -> is_size_token (String c t).
Proof.
  intros Hc (d & u & -> & Hne & Hd & Hu). exists (String c d), u.
  repeat split; try done. simpl. by rewrite Hc.
Qed.

(** X3.  The number of a label is never cut short and the first token wins:
    when the URL holds a size token, the label is a size token standing at a
    place of the URL where the text before it holds no size token and does
    not end in a digit. *)
Theorem label_is_first_and_whole (u : string) :
  has_size_token u ->
  exists t pre post,
    file_size_from_url u = Ok t /\ is_size_token t /\ u = pre +:+ t +:+ post /\
    ~ has_size_token pre /\
    (forall pre' c, pre = pre' +:+ String c EmptyString -> is_digit c = false).
Proof.
  intros Hhas.
  destruct (token_facts.size_label_token u Hhas) as (k & Ht & (pre & post & E & Hk) & Hfirst).
  exists (size_label u), pre, post.
  split; [apply file_size_from_url_label|]. split; [done|]. split; [done|]. split.
  - intros (j & t' & Ht' & a & b & Ea & Hj).
    apply (Hfirst j t'); [|done|].
    + pose proof (token_length _ Ht'). rewrite <- Hk, Ea, !length_append. lia.
    + exists a, (b +:+ size_label u +:+ post). split; [|done].
      rewrite E at 1. rewrite Ea. apply list_of_inj.
      rewrite !list_of_append. by rewrite <- !app_assoc.
  - intros pre' c Epre. destruct (is_digit c) eqn:Hc; [|done].
    destruct (Hfirst (String.length pre') (String c (size_label u))).
    + rewrite <- Hk, Epre, length_append. simpl. lia.
    + by apply digit_before_token.
    + exists pre', post. split; [|done].
      rewrite E at 1. rewrite Epre. apply list_of_inj.
      rewrite !list_of_append. simpl. by rewrite <- !app_assoc.
Qed.

Lemma label_is_first_and_whole_witness :
  exists t pre post,
    file_size_from_url "https://speed.hetzner.de/1100MB.bin" = Ok t /\
    is_size_token t /\
    "https://speed.hetzner.de/1100MB.bin" = pre +:+ t +:+ post.
Proof.
  destruct (label_is_first_and_whole "https://speed.hetzner.de/1100MB.bin")
    as (t & pre & post & H1 & H2 & H3 & _).
  - exists 25%nat, "1100MB". split.
    + exists "1100", "MB". repeat split; try done. simpl. tauto.
    + by exists "https://speed.hetzner.de/", ".bin".
  - exists t, pre, post. split; [exact H1|]. split; [exact H2|exact H3].
Defined.

Lemma token_holds_capital t :
  is_size_token t ->
  In "M"%char (list_ascii_of_string t) \/ In "G"%char (list_ascii_of_string t).
Proof.
  intros (d & u & -> & _ & _ & Hu). rewrite list_of_append.
  simpl in Hu. destruct Hu as [<-|[<-|[<-|[<-|[]]]]];
    [left|right|left|right]; apply in_app_iff; right; by left.
Qed.

(** X4.  The units are case-sensitive: a URL that holds neither a capital
    [M] nor a capital [G] is labelled [file], whatever digits and lower-case
    units it holds. *)
Theorem no_capital_unit_no_size (u : string) :
  ~ In "M"%char (list_ascii_of_string u) ->
  ~ In "G"%char (list_ascii_of_string u) ->
  file_size_from_url u = Ok "file".
Proof.
  intros HM HG. rewrite file_size_from_url_label. f_equal.
  apply token_facts.size_label_file. intros (k & t & Ht & pre & post & -> & _).
  rewrite !list_of_append in HM, HG.
  destruct (token_holds_capital t Ht) as [H|H]; [apply HM|apply HG];
    apply in_app_iff; right; apply in_app_iff; by left.
Qed.

Lemma no_capital_unit_no_size_witness :
  file_size_from_url "https://speed.hetzner.de/100mb.bin" = Ok "file".
Proof.
  apply no_capital_unit_no_size; vm_compute; intuition discriminate.
Defined.

(** ** Extraction without a group *)

Lemma scan_nil_iff r s :
  re.scan r s 0 = [] <-> forall j, re.match_here r (drop j s) = None.
Proof.
  induction s as [|x s IH]; simpl.
  - split.
    + intros H j. rewrite drop_nil. by destruct (re.match_here r []).
    + intros H. pose proof (H 0%nat) as H0. simpl in H0. by rewrite H0.
  - split.
    + intros H. destruct (re.match_here r (x :: s)) eqn:E; [done|].
      intros [|j]; simpl; [done|]. by apply IH.
    + intros H. pose proof (H 0%nat) as H0. simpl in H0. rewrite H0.
      apply IH. intros j. apply (H (S j)).
Qed.

Lemma groupless_compiles mr :
  groupless mr = true -> exists r, re.compile (m_pattern mr) = Some (r, 0%nat).
Proof.
  unfold groupless. destruct (re.compile (m_pattern mr)) as [[r n]|]; [|done].
  intros H. apply Nat.eqb_eq in H as ->. by exists r.
Qed.

(** X5.  For a pattern without a group, every candidate is a full match of
    the pattern and a piece of the page text, and the candidate set is empty
    exactly when no piece of the page text is a full match of the pattern. *)
Theorem groupless_candidates (mr : mirror) (text : string) :
  groupless mr = true ->
  (forall u, u ∈ candidates mr text ->
     re_spec.full_match (m_pattern mr) u /\
     exists pre post, text = pre +:+ u +:+ post) /\
  (candidates mr text = ∅ <->
   forall pre t post, text = pre +:+ t +:+ post ->
                      ~ re_spec.full_match (m_pattern mr) t).
Proof.
  intros Hg. destruct (groupless_compiles mr Hg) as [r Hc].
  unfold candidates, re.findall. rewrite Hc. simpl. split.
  - intros u Hu. apply elem_of_list_to_set, list_elem_of_In, in_map_iff in Hu
      as (m & <- & Hm).
    apply (re_facts.scan_sound (fun _ _ => True)) in Hm as (Hm & (pre & post & E) & _);
      [|apply re_facts.groups_ok_True].
    split.
    + exists r, 0%nat. split; [done|]. unfold re.group.
      by rewrite list_ascii_of_string_of_list_ascii.
    + exists (string_of_list_ascii pre), (string_of_list_ascii post).
      apply list_of_inj. unfold re.group.
      by rewrite !list_of_append, !list_ascii_of_string_of_list_ascii.
  - assert (Hset : list_to_set (map re.group (re.scan r (list_ascii_of_string text) 0))
                   = (∅ : gset string)
                   <-> re.scan r (list_ascii_of_string text) 0 = []).
    { destruct (re.scan r (list_ascii_of_string text) 0) as [|m l]; [done|].
      split; [|done]. intros H. exfalso.
      assert (re.group m ∈ (∅ : gset string)); [|set_solver].
      rewrite <- H. simpl. set_solver. }
    rewrite Hset, scan_nil_iff. split.
    + intros Hnone pre t post -> (r' & n' & Hc' & Hm).
      rewrite Hc in Hc'. injection Hc' as <- <-.
      pose proof (Hnone (length (list_ascii_of_string pre))) as Hhere.
      rewrite !list_of_append, drop_app_length in Hhere.
      by apply (re_facts.match_here_None r _ (list_ascii_of_string t)
                  (list_ascii_of_string post) Hhere).
    + intros Hno j.
      destruct (re.match_here r (drop j (list_ascii_of_string text))) as [m|] eqn:E;
        [|done].
      apply re_facts.match_here_match in E as (Hm & rest & E).
      destruct (Hno (string_of_list_ascii (take j (list_ascii_of_string text)))
                    (string_of_list_ascii (re.group0 m))
                    (string_of_list_ascii rest)).
      * apply list_of_inj.
        by rewrite !list_of_append, !list_ascii_of_string_of_list_ascii, <- E, take_drop.
      * exists r, 0%nat. split; [done|].
        by rewrite list_ascii_of_string_of_list_ascii.
Qed.

Lemma groupless_candidates_witness :
  hetzner_100MB ∈ candidates hetzner (hetzner_100MB +:+ " " +:+ hetzner_100MB) /\
  re_spec.full_match (m_pattern hetzner) hetzner_100MB.
Proof.
  assert (Hu : hetzner_100MB ∈ candidates hetzner (hetzner_100MB +:+ " " +:+ hetzner_100MB))
    by (vm_compute; reflexivity).
  split; [exact Hu|].
  exact (proj1 (proj1 (groupless_candidates hetzner
                         (hetzner_100MB +:+ " " +:+ hetzner_100MB) eq_refl)
                      hetzner_100MB Hu)).
Defined.

(** ** What standard output holds *)

Lemma try_mirror_exception w i mr :
  snd (try_mirror w i mr []) =
    match requests.get w i (m_url mr) with
    | Raise e => Some e
    | Ok text =>
        match re.findall (m_pattern mr) text with
        | Raise e => Some e
        | Ok _ => None
        end
    end.
Proof.
  unfold try_mirror. destruct (requests.get w i (m_url mr)) as [text|e]; [|done].
  destruct (re.findall (m_pattern mr) text); [|done]. by rewrite probe_urls_filter.
Qed.

Lemma findall_fit mr text :
  pattern_fit mr = true -> exists found, re.findall (m_pattern mr) text = Ok found.
Proof.
  unfold pattern_fit, re.findall.
  destruct (re.compile (m_pattern mr)) as [[r n]|]; [|done]. eauto.
Qed.

Lemma visit_all_failures w pages : forall i st,
  forallb pattern_fit pages = true ->
  snd (visit_all w i pages st) = snd st ++ failures w i pages.
Proof.
  induction pages as [|mr pages IH]; intros i st Hfit; simpl in *.
  - by rewrite app_nil_r.
  - apply andb_prop in Hfit as [Hmr Hfit]. rewrite (IH _ _ Hfit). clear IH.
    unfold visit. rewrite try_mirror_entries, try_mirror_exception.
    destruct (requests.get w i (m_url mr)) as [text|e]; simpl.
    + destruct (findall_fit mr text Hmr) as [found ->]. done.
    + by rewrite <- app_assoc.
Qed.

Lemma in_failures w pages line : forall i,
  In line (failures w i pages) <->
  exists j mr e, pages !! j = Some mr /\ requests.get w (i + j) (m_url mr) = Raise e /\
                 line = failure_line mr e.
Proof.
  induction pages as [|mr pages IH]; intros i; simpl.
  - split; [done|]. by intros (j & ? & ? & ? & _).
  - rewrite in_app_iff, IH. split.
    + intros [H|(j & mr' & e & Hj & Hget & ->)].
      * destruct (requests.get w i (m_url mr)) as [|e] eqn:Hget; [done|].
        destruct H as [<-|[]]. exists 0%nat, mr, e. by rewrite Nat.add_0_r.
      * exists (S j), mr', e. by rewrite Nat.add_succ_r.
    + intros ([|j] & mr' & e & Hj & Hget & ->); simpl in Hj.
      * injection Hj as <-. rewrite Nat.add_0_r in Hget. rewrite Hget. left. by left.
      * right. exists j, mr', e. by rewrite Nat.add_succ_r in Hget.
Qed.

(** X6.  Standard output holds one failure line for each provider whose
    fetch raised, in table order, followed by the summary when the run ends
    without exception, and nothing else: no line is printed for a provider
    whose page was fetched. *)
Theorem stdout_lines (w : world) :
  stdout (main w) =
    failures w 0 mirror_pages ++
    match uncaught (main w) with
    | None => [summary_line (length (sites_of mirror_pages w))]
    | Some _ => []
    end /\
  (forall line, In line (failures w 0 mirror_pages) <->
     exists i mr e, mirror_pages !! i = Some mr /\
                    requests.get w i (m_url mr) = Raise e /\
                    line = failure_line mr e).
Proof.
  split; [|intros line; apply in_failures].
  assert (Hp : printed mirror_pages w = failures w 0 mirror_pages)
    by (unfold printed; by rewrite visit_all_failures; [|apply mirror_pages_fit]).
  unfold main. destruct (fs_open w "../sites.jsonc") as [[]|e] eqn:Hopen.
  - rewrite (main_on_completed _ _ Hopen). cbn [stdout uncaught]. by rewrite Hp.
  - rewrite (main_on_aborted _ _ e Hopen). cbn [stdout uncaught].
    by rewrite Hp, app_nil_r.
Qed.

(** ** The iteration order of sets *)

Lemma filter_bool_Permutation {A : Type} (f g : A -> bool) (l k : list A) :
  (forall x, f x = g x) -> l ≡ₚ k -> List.filter f l ≡ₚ List.filter g k.
Proof.
  intros Hfg Hp. rewrite <- (List.filter_ext f g Hfg k).
  induction Hp as [|x l k _ IH|x y l|l k m _ IH1 _ IH2]; simpl.
  - done.
  - destruct (f x); by rewrite IH.
  - destruct (f x), (f y); try done. apply perm_swap.
  - by rewrite IH1.
Qed.

Section two_worlds.
Variables w1 w2 : world.
Hypothesis same_get : forall i u, net_get w1 i u = net_get w2 i u.
Hypothesis same_head : forall i u, net_head w1 i u = net_head w2 i u.

Lemma same_requests_get i u : requests.get w1 i u = requests.get w2 i u.
Proof. unfold requests.get. by rewrite same_get. Qed.

Lemma same_is_alive i u : is_alive w1 i u = is_alive w2 i u.
Proof. unfold is_alive, requests.head. by rewrite same_head. Qed.

Lemma entries_Permutation i mr : entries w1 i mr ≡ₚ entries w2 i mr.
Proof.
  destruct (requests.get w1 i (m_url mr)) as [text|e] eqn:Hget.
  - rewrite (entries_fetched _ _ _ _ Hget).
    rewrite same_requests_get in Hget. rewrite (entries_fetched _ _ _ _ Hget).
    apply Permutation_map, filter_bool_Permutation; [apply same_is_alive|].
    by rewrite !hash_order_perm.
  - unfold entries. rewrite (entries_failed _ _ _ _ Hget).
    rewrite same_requests_get in Hget. by rewrite (entries_failed _ _ _ _ Hget).
Qed.

Lemma all_entries_Permutation pages : forall i,
  all_entries w1 i pages ≡ₚ all_entries w2 i pages.
Proof.
  induction pages as [|mr pages IH]; intros i; simpl; [done|].
  by rewrite entries_Permutation, IH.
Qed.

Lemma failures_same pages : forall i, failures w1 i pages = failures w2 i pages.
Proof.
  induction pages as [|mr pages IH]; intros i; simpl; [done|].
  by rewrite same_requests_get, IH.
Qed.

End two_worlds.

(** X7.  The iteration order of the candidate sets changes the final list
    by a permutation only: two runs that meet the same network answers
    produce the same descriptors, as many of them, and print the same failure
    lines. *)
Theorem output_independent_of_set_order (w1 w2 : world) :
  (forall i u, net_get w1 i u = net_get w2 i u) ->
  (forall i u, net_head w1 i u = net_head w2 i u) ->
  sites_of mirror_pages w1 ≡ₚ sites_of mirror_pages w2 /\
  length (sites_of mirror_pages w1) = length (sites_of mirror_pages w2) /\
  printed mirror_pages w1 = printed mirror_pages w2.
Proof.
  intros Hget Hhead.
  assert (Hp : sites_of mirror_pages w1 ≡ₚ sites_of mirror_pages w2)
    by (rewrite !sites_of_all_entries; by apply all_entries_Permutation).
  split; [done|]. split; [by rewrite Hp|].
  unfold printed. rewrite !visit_all_failures by apply mirror_pages_fit.
  cbn [snd app]. by apply failures_same.
Qed.

Lemma output_independent_of_set_order_witness :
  sites_of mirror_pages world_hetzner_pair
    = [descriptor_for hetzner hetzner_1GB; descriptor_for hetzner hetzner_100MB] /\
  sites_of mirror_pages world_hetzner_pair_reversed
    = [descriptor_for hetzner hetzner_100MB; descriptor_for hetzner hetzner_1GB] /\
  sites_of mirror_pages world_hetzner_pair
    ≡ₚ sites_of mirror_pages world_hetzner_pair_reversed.
Proof.
  split; [vm_compute; reflexivity|]. split; [vm_compute; reflexivity|].
  apply (output_independent_of_set_order world_hetzner_pair world_hetzner_pair_reversed).
  - intros i u. reflexivity.
  - intros i u. reflexivity.
Defined.

(** ** The strings of the written document *)

Lemma in_all_ascii c : In c all_ascii.
Proof.
  unfold all_ascii. rewrite <- (ascii_nat_embedding c). apply in_map, in_seq.
  pose proof (nat_ascii_bounded c). lia.
Qed.

Lemma escape_char_plain c :
  plain_char c = true -> json.escape_char c = String c EmptyString.
Proof. destruct c as [[] [] [] [] [] [] [] []]; vm_compute; congruence. Qed.

Lemma escape_plain s : plain s = true -> json.escape s = s.
Proof.
  unfold plain. induction s as [|c s IH]; simpl; [done|].
  intros H. apply andb_prop in H as [Hc Hs]. by rewrite escape_char_plain, IH.
Qed.

Lemma plain_append a b : plain (a +:+ b) = plain a && plain b.
Proof. unfold plain. by rewrite list_of_append, forallb_app. Qed.

Lemma digit_plain c : is_digit c = true -> plain_char c = true.
Proof. destruct c as [[] [] [] [] [] [] [] []]; vm_compute; congruence. Qed.

Lemma token_plain t : is_size_token t -> plain t = true.
Proof.
  intros (d & u & -> & _ & Hd & Hu). rewrite plain_append. apply andb_true_iff. split.
  - unfold plain. rewrite forallb_forall in Hd |- *. auto using digit_plain.
  - simpl in Hu. by destruct Hu as [<-|[<-|[<-|[<-|[]]]]].
Qed.

Lemma size_label_plain u : plain (size_label u) = true.
Proof.
  destruct (token_facts.size_label_cases u) as [[_ (k & Ht & _)]|[_ ->]]; [|done].
  by apply token_plain.
Qed.

Lemma mirror_pages_plain : forallb mirror_plain mirror_pages = true.
Proof. vm_compute. reflexivity. Qed.

Lemma full_match_plain mr u :
  mirror_plain mr = true -> re_spec.full_match (m_pattern mr) u -> plain u = true.
Proof.
  unfold mirror_plain. intros H (r & n & Hc & Hm). rewrite Hc in H.
  apply andb_prop in H as [_ H]. rewrite forallb_forall in H.
  unfold plain. apply forallb_forall. intros c Hin.
  specialize (H c (in_all_ascii c)).
  by rewrite (re_facts.emits_sound c r _ Hm Hin) in H.
Qed.

(** X8.  No string of the written document needs an escape: for every
    descriptor of the final list, name, URL and country are written between
    quotes exactly as they are, and the object is laid out on five lines with
    the keys [name], [url], [country] in that order. *)
Theorem descriptors_written_verbatim (w : world) (d : descriptor) :
  In d (sites_of mirror_pages w) ->
  json.escape (name d) = name d /\
  json.escape (url d) = url d /\
  json.escape (country d) = country d /\
  json.dump_object 2 1 (to_object d) = object_text d.
Proof.
  intros Hd. apply in_sites_of in Hd as (i & mr & Hi & Hd).
  pose proof Hd as Hfit. apply entry_fit in Hfit as (Hm & _ & _); [|by eapply lookup_fit].
  assert (Hmr : mirror_plain mr = true).
  { pose proof mirror_pages_plain as H. rewrite forallb_forall in H.
    apply H, list_elem_of_In, list_elem_of_lookup. eauto. }
  pose proof (full_match_plain mr (url d) Hmr Hm) as Hu.
  apply in_entries in Hd as (text & u & _ & _ & _ & ->).
  unfold mirror_plain in Hmr. apply andb_prop in Hmr as [Hmr _].
  apply andb_prop in Hmr as [Hn Hc].
  unfold descriptor_for in *. cbn [name url country] in *.
  assert (En : json.escape (m_name mr +:+ " " +:+ size_label u)
               = m_name mr +:+ " " +:+ size_label u).
  { apply escape_plain. rewrite !plain_append, Hn, size_label_plain. done. }
  assert (Eu : json.escape u = u) by by apply escape_plain.
  assert (Ec : json.escape (m_country mr) = m_country mr) by by apply escape_plain.
  repeat split; try done.
  unfold json.dump_object, object_text, to_object, json.dump_string.
  cbn [map fst snd json.join name url country]. rewrite En, Eu, Ec.
  apply list_of_inj. rewrite !list_of_append.
  repeat (progress (simpl; rewrite <- ?app_assoc)). done.
Qed.

Lemma descriptors_written_verbatim_witness :
  let d := mkDescriptor "Hetzner Germany 100MB" hetzner_100MB "DE" in
  In d (sites_of mirror_pages world_hetzner_twice) /\
  json.dump_object 2 1 (to_object d) = object_text d.
Proof.
  intros d.
  assert (H : In d (sites_of mirror_pages world_hetzner_twice))
    by (vm_compute; left; reflexivity).
  split; [exact H|].
  exact (proj2 (proj2 (proj2 (descriptors_written_verbatim world_hetzner_twice d H)))).
Defined.

(** ** The files *)

Lemma summary_not_failure n mr e : summary_line n <> failure_line mr e.
Proof. unfold summary_line, failure_line. simpl. discriminate. Qed.

(** X9.  A run writes to no file but [../sites.jsonc]; and when that file
    cannot be opened the exception ends the run: no file changes at all, the
    failure lines printed so far stay and no summary is printed. *)
Theorem only_the_catalog_is_written (w : world) :
  (forall path, path <> "../sites.jsonc" ->
                files (main w) !! path = fs_files w !! path) /\
  (forall e, fs_open w "../sites.jsonc" = Raise e ->
     uncaught (main w) = Some e /\
     files (main w) = fs_files w /\
     stdout (main w) = failures w 0 mirror_pages /\
     forall n, ~ In (summary_line n) (stdout (main w))).
Proof.
  assert (Hp : printed mirror_pages w = failures w 0 mirror_pages)
    by (unfold printed; by rewrite visit_all_failures; [|apply mirror_pages_fit]).
  split.
  - intros path Hne. unfold main.
    destruct (fs_open w "../sites.jsonc") as [[]|e] eqn:Hopen.
    + rewrite (main_on_completed _ _ Hopen). cbn [files].
      by rewrite lookup_insert_ne.
    + by rewrite (main_on_aborted _ _ e Hopen).
  - intros e Hopen. unfold main. rewrite (main_on_aborted _ _ e Hopen).
    cbn [uncaught files stdout]. rewrite Hp. repeat split.
    intros n Hin. apply in_failures in Hin as (j & mr & e' & _ & _ & Hin).
    by apply summary_not_failure in Hin.
Qed.

(** ** Where the listed files lie *)

Lemma after_prefix_sound r u :
  re_spec.matches r u ->
  exists rest, u = re_spec.literal_prefix r ++ rest /\
               re_spec.matches (after_prefix r) rest.
Proof.
  induction 1 as [|a|cs y Hy|cs u Hne Hu|r1 r2 u1 u2 H1 IH1 H2 IH2
                 |r1 r2 u H IH|r1 r2 u H IH|i r u H IH]; simpl.
  - exists []. eauto using re_spec.matches.
  - exists []. eauto using re_spec.matches.
  - exists [y]. eauto using re_spec.matches.
  - exists u. eauto using re_spec.matches.
  - destruct r1; simpl;
      try (exists (u1 ++ u2); split; [done|]; by apply re_spec.M_Cat).
    inversion H1; subst. destruct IH2 as (rest & -> & Hrest). by exists rest.
  - exists u. split; [done|]. by apply re_spec.M_AltL.
  - exists u. split; [done|]. by apply re_spec.M_AltR.
  - exists u. split; [done|]. by apply re_spec.M_Group.
Qed.

(** X10.  For the providers whose pattern starts with their index URL and
    has no group (all but Azure Global and the five with a group), every
    listed URL is the index URL followed by a file name that holds no [/]:
    the listed files lie directly in the directory whose page was fetched. *)
Theorem listed_files_lie_under_index (w : world) (i : nat) (mr : mirror) (d : descriptor) :
  mirror_pages !! i = Some mr -> under_index mr = true ->
  In d (entries w i mr) ->
  exists file, url d = m_url mr +:+ file /\
               ~ In "/"%char (list_ascii_of_string file).
Proof.
  intros Hi Hunder Hd.
  apply entry_fit in Hd as ((r & n & Hc & Hm) & _); [|by eapply lookup_fit].
  unfold under_index in Hunder. rewrite Hc in Hunder.
  apply andb_prop in Hunder as [Hunder Hslash].
  apply andb_prop in Hunder as [_ Hpre]. apply bool_decide_eq_true in Hpre.
  apply after_prefix_sound in Hm as (rest & E & Hrest). rewrite Hpre in E.
  exists (string_of_list_ascii rest). split.
  - apply list_of_inj. by rewrite list_of_append, list_ascii_of_string_of_list_ascii.
  - rewrite list_ascii_of_string_of_list_ascii. intros Hin.
    apply (re_facts.emits_sound _ _ _ Hrest) in Hin.
    by rewrite Hin in Hslash.
Qed.

Lemma listed_files_lie_under_index_witness :
  exists file, hetzner_100MB = m_url hetzner +:+ file /\
               ~ In "/"%char (list_ascii_of_string file).
Proof.
  apply (listed_files_lie_under_index world_hetzner_twice 0 hetzner
           (mkDescriptor "Hetzner Germany 100MB" hetzner_100MB "DE")).
  - reflexivity.
  - vm_compute. reflexivity.
  - vm_compute. left. reflexivity.
Defined.

(** The ten providers X10 speaks of. *)
Lemma providers_under_index :
  map m_name (List.filter under_index mirror_pages) =
    ["Hetzner Germany"; "ThinkBroadband UK"; "Tele2 Sweden"; "Linode US"; "Linode DE";
     "Linode UK"; "Linode JP"; "Linode SG"; "AWS S3 US East"; "DigitalOcean NYC1"].
Proof. vm_compute. reflexivity. Qed.

(** ** The name of a descriptor *)

Lemma token_no_slash t : token t -> ~ In "/"%char t.
Proof.
  intros (d & u & -> & _ & Hd & Hu) Hin. apply in_app_iff in Hin as [Hin|Hin].
  - rewrite forallb_forall in Hd. by apply Hd in Hin.
  - rewrite <- (list_ascii_of_string_of_list_ascii u) in Hin. simpl in Hu.
    destruct Hu as [E|[E|[E|[E|[]]]]]; rewrite <- E in Hin; simpl in Hin;
      intuition discriminate.
Qed.

Lemma app_before_char {A : Type} (c : A) (t : list A) : forall b p rest,
  t ++ b = p ++ c :: rest -> ~ In c t -> exists p', p = t ++ p'.
Proof.
  induction t as [|x t IH]; intros b p rest E Hc; simpl in *.
  - by exists p.
  - destruct p as [|y p]; simpl in E.
    + injection E as -> _. destruct Hc. by left.
    + injection E as -> E. destruct (IH b p rest E) as [p' ->]; [tauto|].
      by exists p'.
Qed.

Lemma mirror_prefixes_tokenless : forallb prefix_tokenless mirror_pages = true.
Proof. vm_compute. reflexivity. Qed.

(** In a URL of a provider of the table that ends in [/NAME], the size token
    that starts first is the first one of [NAME]: the part up to that [/] is
    literal text of the pattern and holds no size token. *)
Lemma nothing_before_file_name w i mr d pre file :
  mirror_pages !! i = Some mr -> In d (entries w i mr) ->
  url d = pre +:+ "/" +:+ file ->
  forall j t, (j < S (String.length pre))%nat -> is_size_token t ->
              ~ occurs_at (url d) j t.
Proof.
  intros Hi Hd Eurl j t Hj Ht Hocc.
  apply entry_fit in Hd as ((r & n & Hc & Hm) & _); [|by eapply lookup_fit].
  assert (Hfit : prefix_tokenless mr = true).
  { pose proof mirror_prefixes_tokenless as H. rewrite forallb_forall in H.
    apply H, list_elem_of_In, list_elem_of_lookup. eauto. }
  unfold prefix_tokenless in Hfit. rewrite Hc in Hfit.
  apply andb_prop in Hfit as [Hslash Hnone].
  destruct (re.search_from size_regex (re_spec.literal_prefix r)) eqn:Hsearch; [done|].
  apply after_prefix_sound in Hm as (rest & E & Hrest).
  assert (Hnoslash : ~ In "/"%char rest).
  { intros Hin. apply (re_facts.emits_sound _ _ _ Hrest) in Hin.
    by rewrite Hin in Hslash. }
  rewrite Eurl in E, Hocc. rewrite !list_of_append in E. simpl in E.
  set (lpre := list_ascii_of_string pre) in *.
  set (lfile := list_ascii_of_string file) in *.
  assert (Hlit : exists l', re_spec.literal_prefix r = lpre ++ "/"%char :: l').
  { destruct (Nat.le_gt_cases (length (re_spec.literal_prefix r)) (length lpre)) as [Hle|Hgt].
    - apply app_split_left in E as (p' & _ & E'); [|done].
      destruct Hnoslash. rewrite E'. apply in_app_iff. right. by left.
    - symmetry in E. apply app_split_left in E as (l' & El & E'); [|lia].
      destruct l' as [|c l']; simpl in E'.
      + destruct Hnoslash. rewrite <- E'. by left.
      + injection E' as <- _. by exists l'. }
  destruct Hlit as [l' Hlit].
  apply token_facts.occurs_at_position in Hocc as (a & b & Ea & Hlen).
  rewrite !list_of_append in Ea. simpl in Ea. fold lpre lfile in Ea.
  apply app_split_left in Ea as (p' & Ep & Ea);
    [|unfold lpre; rewrite length_list_of; lia].
  apply app_before_char in Ea as [p'' ->].
  - apply (token_facts.search_from_nowhere _ _ Hsearch j (list_ascii_of_string t)).
    + by apply token_facts.match_of_token.
    + exists a, (p'' ++ "/"%char :: l'). split; [|done].
      by rewrite Hlit, Ep, <- !app_assoc.
  - by apply token_no_slash, token_facts.is_size_token_token.
Qed.

(** C7.  The name of a descriptor is the name of its provider, a space and
    the label of the URL; the label is a size token that occurs in the URL
    (digits immediately followed by MB, GB, Mb or Gb), or [file] when the URL
    holds no size token.  A URL whose file name is [100MB.bin] is named
    [<Provider> 100MB]; so is any URL that ends in [100MB.bin] with no size
    token starting before that suffix; a URL that ends in [file.bin] and
    holds no size token is named [<Provider> file]. *)
Theorem descriptor_name_label (w : world) (i : nat) (mr : mirror) (d : descriptor) :
  mirror_pages !! i = Some mr ->
  In d (entries w i mr) ->
  exists label,
    name d = m_name mr +:+ " " +:+ label /\
    file_size_from_url (url d) = Ok label /\
    ((is_size_token label /\ exists k, occurs_at (url d) k label) \/
     (~ has_size_token (url d) /\ label = "file")) /\
    (has_size_token (url d) -> is_size_token label) /\
    (ends_with (url d) "/100MB.bin" -> name d = m_name mr +:+ " 100MB") /\
    (forall pre, url d = pre +:+ "100MB.bin" ->
       (forall j t, (j < String.length pre)%nat -> is_size_token t ->
                    ~ occurs_at (url d) j t) ->
       name d = m_name mr +:+ " 100MB") /\
    (ends_with (url d) "file.bin" -> ~ has_size_token (url d) ->
     name d = m_name mr +:+ " file").
Proof.
  intros Hi Hd.
  pose proof (nothing_before_file_name w i mr d) as Hfile.
  specialize (fun pre file => Hfile pre file Hi Hd).
  apply in_entries in Hd as (text & u & _ & _ & _ & ->). simpl in *.
  assert (H100 : is_size_token "100MB").
  { exists "100", "MB". repeat split; try done. simpl. tauto. }
  exists (size_label u). split; [done|]. split; [apply file_size_from_url_label|].
  split; [|split; [|split; [|split]]].
  - destruct (token_facts.size_label_cases u) as [[_ (k & Ht & Hocc & _)]|H].
    + left. eauto.
    + by right.
  - intros Hhas. by destruct (token_facts.size_label_token u Hhas) as (k & Ht & _).
  - intros [pre E].
    assert (E' : u = pre +:+ "/" +:+ "100MB.bin").
    { rewrite E. apply list_of_inj. by rewrite !list_of_append. }
    rewrite (token_facts.size_label_first u "100MB"); [done|].
    exists (S (String.length pre)). split; [done|].
    split; [|by apply (Hfile pre "100MB.bin")].
    exists (pre +:+ "/"), ".bin". split.
    + rewrite E. apply list_of_inj. rewrite !list_of_append. simpl.
      by rewrite <- !app_assoc.
    + rewrite length_append. simpl. lia.
  - intros pre E Hfirst. rewrite (token_facts.size_label_first u "100MB"); [done|].
    exists (String.length pre). split; [done|]. split; [|done].
    by exists pre, ".bin".
  - intros _ Hno. by rewrite token_facts.size_label_file.
Qed.

Lemma descriptor_name_label_witness :
  let d := mkDescriptor "Hetzner Germany 100MB" hetzner_100MB "DE" in
  In d (entries world_hetzner_twice 0 hetzner) /\
  name d = m_name hetzner +:+ " 100MB".
Proof.
  intros d.
  assert (H : In d (entries world_hetzner_twice 0 hetzner))
    by (vm_compute; left; reflexivity).
  split; [exact H|].
  destruct (descriptor_name_label world_hetzner_twice 0 hetzner d eq_refl H)
    as (label & _ & _ & _ & _ & H100 & _).
  apply H100. exists "https://speed.hetzner.de". reflexivity.
Defined.

(** ** Reading back the written document *)

Module json_facts.
Import json.

Lemma read_app st a b : read st (a ++ b) = read (read st a) b.
Proof. apply fold_left_app. Qed.

Lemma read_cons st c l : read (Some st) (c :: l) = read (step st c) l.
Proof. reflexivity. Qed.

Lemma read_ws m stk l :
  skips m = true -> forallb is_ws l = true -> read (Some (m, stk)) l = Some (m, stk).
Proof.
  intros Hm. induction l as [|c l IH]; intros H; [done|].
  simpl in H. apply andb_prop in H as [Hc Hl]. rewrite read_cons.
  assert (step (m, stk) c = Some (m, stk)) as ->; [|by apply IH].
  destruct m; simpl in *; try done; by rewrite Hc.
Qed.

Lemma indent_ws n : forallb is_ws (list_ascii_of_string (nl +:+ spaces n)) = true.
Proof. simpl. induction n as [|n IH]; simpl; [done|]. exact IH. Qed.

Lemma read_indent m stk n :
  skips m = true ->
  read (Some (m, stk)) (list_ascii_of_string (nl +:+ spaces n)) = Some (m, stk).
Proof. intros Hm. apply read_ws; [done|apply indent_ws]. Qed.

(** An escaped character is read back as the character. *)
Lemma read_escape_char c acc k stk :
  read (Some (Chars acc k, stk)) (list_ascii_of_string (escape_char c))
    = Some (Chars (c :: acc) k, stk).
Proof. destruct c as [[] [] [] [] [] [] [] []]; reflexivity. Qed.

Lemma read_escape s k stk : forall acc,
  read (Some (Chars acc k, stk)) (list_ascii_of_string (escape s))
    = Some (Chars (rev (list_ascii_of_string s) ++ acc) k, stk).
Proof.
  induction s as [|c s IH]; intros acc; simpl; [done|].
  rewrite list_of_append, read_app, read_escape_char, IH.
  by rewrite <- app_assoc.
Qed.

Lemma read_string_value s m stk :
  m = Value \/ m = ValueOrEnd ->
  read (Some (m, stk)) (list_ascii_of_string (dump_string s))
    = Some (After (Str s), stk).
Proof.
  intros Hm. unfold dump_string. rewrite !list_of_append.
  change (list_ascii_of_string dq) with ["034"%char].
  assert (read (Some (m, stk)) ["034"%char] = Some (Chars [] false, stk)) as Hopen
    by (by destruct Hm as [-> | ->]).
  rewrite read_app, Hopen, read_app, read_escape, app_nil_r.
  simpl. by rewrite rev_involutive, string_of_list_ascii_of_string.
Qed.

Lemma read_string_key s first ms stk :
  read (Some (Key first, FObj ms None :: stk)) (list_ascii_of_string (dump_string s))
    = Some (Colon, FObj ms (Some s) :: stk).
Proof.
  unfold dump_string. rewrite !list_of_append.
  change (list_ascii_of_string dq) with ["034"%char].
  assert (read (Some (Key first, FObj ms None :: stk)) ["034"%char]
          = Some (Chars [] true, FObj ms None :: stk)) as Hopen by (by destruct first).
  rewrite read_app, Hopen, read_app, read_escape, app_nil_r.
  simpl. by rewrite rev_involutive, string_of_list_ascii_of_string.
Qed.

(** A member [key: value] of an object. *)
Lemma read_member k v first ms stk :
  read (Some (Key first, FObj ms None :: stk))
       (list_ascii_of_string (dump_string k +:+ ": " +:+ dump_string v))
    = Some (After (Str v), FObj ms (Some k) :: stk).
Proof.
  rewrite !list_of_append, read_app, read_string_key, read_app.
  change (read (Some (Colon, FObj ms (Some k) :: stk)) (list_ascii_of_string ": "))
    with (Some (Value, FObj ms (Some k) :: stk)).
  apply read_string_value. by left.
Qed.

Lemma read_next_member v k ms stk n :
  read (Some (After v, FObj ms (Some k) :: stk))
       (list_ascii_of_string ("," +:+ nl +:+ spaces n))
    = Some (Key false, FObj ((k, v) :: ms) None :: stk).
Proof.
  rewrite list_of_append, read_app.
  change (read (Some (After v, FObj ms (Some k) :: stk)) (list_ascii_of_string ","))
    with (Some (Key false, FObj ((k, v) :: ms) None :: stk)).
  by apply read_indent.
Qed.

Lemma read_next_item v items stk n :
  read (Some (After v, FArr items :: stk))
       (list_ascii_of_string ("," +:+ nl +:+ spaces n))
    = Some (Value, FArr (v :: items) :: stk).
Proof.
  rewrite list_of_append, read_app.
  change (read (Some (After v, FArr items :: stk)) (list_ascii_of_string ","))
    with (Some (Value, FArr (v :: items) :: stk)).
  by apply read_indent.
Qed.

(** The text of an object, cut where the reader changes state. *)
Lemma object_pieces d :
  list_ascii_of_string (dump_object 2 1 (to_object d)) =
    list_ascii_of_string "{" ++ list_ascii_of_string (nl +:+ spaces 4)
    ++ list_ascii_of_string (dump_string "name" +:+ ": " +:+ dump_string (name d))
    ++ list_ascii_of_string ("," +:+ nl +:+ spaces 4)
    ++ list_ascii_of_string (dump_string "url" +:+ ": " +:+ dump_string (url d))
    ++ list_ascii_of_string ("," +:+ nl +:+ spaces 4)
    ++ list_ascii_of_string (dump_string "country" +:+ ": " +:+ dump_string (country d))
    ++ list_ascii_of_string (nl +:+ spaces 2) ++ list_ascii_of_string "}".
Proof.
  unfold dump_object, to_object. cbn [map join fst snd Nat.mul Nat.add].
  rewrite !list_of_append. by rewrite <- !app_assoc.
Qed.

Lemma read_object d m stk :
  m = Value \/ m = ValueOrEnd ->
  read (Some (m, stk)) (list_ascii_of_string (dump_object 2 1 (to_object d)))
    = Some (After (descriptor_value d), stk).
Proof.
  intros Hm. rewrite object_pieces.
  assert (read (Some (m, stk)) (list_ascii_of_string "{")
          = Some (Key true, FObj [] None :: stk)) as Hopen
    by (by destruct Hm as [-> | ->]).
  rewrite read_app, Hopen.
  rewrite read_app, read_indent by done.
  rewrite read_app, read_member.
  rewrite read_app, read_next_member.
  rewrite read_app, read_member.
  rewrite read_app, read_next_member.
  rewrite read_app, read_member.
  rewrite read_app, read_indent by done.
  reflexivity.
Qed.

(** The items of an array up to its closing bracket. *)
Lemma read_items ds : forall d items m stk,
  m = Value \/ m = ValueOrEnd ->
  read (Some (m, FArr items :: stk))
       (list_ascii_of_string
          (join ("," +:+ nl +:+ spaces 2) (map (dump_object 2 1) (map to_object (d :: ds)))
           +:+ nl +:+ "]"))
    = Some (After (Arr (rev items ++ map descriptor_value (d :: ds))), stk).
Proof.
  induction ds as [|d' ds IH]; intros d items m stk Hm.
  - cbn [map join]. rewrite list_of_append, read_app, read_object by done.
    rewrite list_of_append, read_app.
    change nl with (nl +:+ spaces 0) at 1. rewrite read_indent by done.
    reflexivity.
  - change (join ("," +:+ nl +:+ spaces 2)
              (map (dump_object 2 1) (map to_object (d :: d' :: ds))))
      with (dump_object 2 1 (to_object d) +:+ ("," +:+ nl +:+ spaces 2)
            +:+ join ("," +:+ nl +:+ spaces 2)
                  (map (dump_object 2 1) (map to_object (d' :: ds)))).
    assert (list_ascii_of_string
              ((dump_object 2 1 (to_object d) +:+ ("," +:+ nl +:+ spaces 2)
                +:+ join ("," +:+ nl +:+ spaces 2)
                      (map (dump_object 2 1) (map to_object (d' :: ds))))
               +:+ nl +:+ "]")
            = list_ascii_of_string (dump_object 2 1 (to_object d))
              ++ list_ascii_of_string ("," +:+ nl +:+ spaces 2)
              ++ list_ascii_of_string
                   (join ("," +:+ nl +:+ spaces 2)
                      (map (dump_object 2 1) (map to_object (d' :: ds)))
                    +:+ nl +:+ "]")) as E.
    { rewrite !list_of_append. by rewrite <- !app_assoc. }
    rewrite E, read_app, read_object by done.
    rewrite read_app, read_next_item, IH by (by left).
    cbn [rev map]. by rewrite <- app_assoc.
Qed.

(** Reading back what [json.dump] writes for a list of descriptors gives
    the array of their values. *)
Lemma loads_dump ds :
  loads (dump (map to_object ds) 2) = Some (Arr (map descriptor_value ds)).
Proof.
  destruct ds as [|d ds]; [reflexivity|].
  unfold loads, dump.
  change (map to_object (d :: ds)) with (to_object d :: map to_object ds).
  cbv match.
  rewrite list_of_append, read_app.
  change (read (Some (Value, [])) (list_ascii_of_string "["))
    with (Some (ValueOrEnd, [FArr []])).
  assert (list_ascii_of_string
            (nl +:+ spaces 2
             +:+ join ("," +:+ nl +:+ spaces 2)
                   (map (dump_object 2 1) (to_object d :: map to_object ds))
             +:+ nl +:+ "]")
          = list_ascii_of_string (nl +:+ spaces 2)
            ++ list_ascii_of_string
                 (join ("," +:+ nl +:+ spaces 2)
                    (map (dump_object 2 1) (map to_object (d :: ds)))
                  +:+ nl +:+ "]")) as E.
  { rewrite !list_of_append. by rewrite <- !app_assoc. }
  rewrite E, read_app, read_indent, read_items by (done || by right).
  reflexivity.
Qed.

End json_facts.

(** C9.  In every run that ends without exception the output file holds,
    whatever it held before, the text [json.dump] writes for the accumulated
    list; that text is a JSON array, which reads back as the values of the
    descriptors, in order; and the last line printed reports the length of
    that array.  When no candidate of any fetched page is alive (in
    particular when every fetch fails) the text is the empty array and the
    count reported is 0. *)
Theorem writer_always_runs (w : world) :
  uncaught (main w) = None ->
  exists text items,
    files (main w) = <["../sites.jsonc" := text]> (fs_files w) /\
    text = json.dump (map to_object (sites_of mirror_pages w)) 2 /\
    json.loads text = Some (json.Arr items) /\
    items = map descriptor_value (sites_of mirror_pages w) /\
    last (stdout (main w)) = Some (summary_line (length items)) /\
    ((forall i mr page u,
        mirror_pages !! i = Some mr -> requests.get w i (m_url mr) = Ok page ->
        u ∈ candidates mr page -> is_alive w i u = false) ->
     text = "[]" /\ items = [] /\
     last (stdout (main w)) = Some "Updated sites.jsonc with 0 alive entries.").
Proof.
  intros Hdone. apply main_on_uncaught in Hdone. unfold main.
  rewrite (main_on_completed _ _ Hdone). cbn [files stdout].
  exists (json.dump (map to_object (sites_of mirror_pages w)) 2),
         (map descriptor_value (sites_of mirror_pages w)).
  split; [done|]. split; [done|]. split; [apply json_facts.loads_dump|].
  split; [done|]. split; [by rewrite length_map, last_snoc|].
  intros Hdead.
  assert (Hnone : sites_of mirror_pages w = []).
  { destruct (sites_of mirror_pages w) as [|d l] eqn:Hs; [done|].
    assert (Hd : In d (sites_of mirror_pages w)) by (rewrite Hs; by left).
    apply in_sites_of in Hd as (i & mr & Hi & Hd).
    apply in_entries in Hd as (page & u & Hget & Hu & Ha & _).
    rewrite (Hdead i mr page u Hi Hget Hu) in Ha. done. }
  rewrite Hnone. split; [done|]. split; [done|]. apply last_snoc.
Qed.

Lemma writer_always_runs_witness :
  uncaught (main world_hetzner_pair) = None /\
  exists text items,
    files (main world_hetzner_pair) !! "../sites.jsonc" = Some text /\
    json.loads text = Some (json.Arr items) /\
    length items = 2%nat /\
    last (stdout (main world_hetzner_pair))
      = Some "Updated sites.jsonc with 2 alive entries.".
Proof.
  split; [reflexivity|].
  destruct (writer_always_runs world_hetzner_pair eq_refl)
    as (text & items & Hf & _ & Hl & Hi & Hs & _).
  exists text, items. split; [by rewrite Hf, lookup_insert_eq|].
  split; [exact Hl|].
  assert (Hn : length items = 2%nat) by (rewrite Hi; vm_compute; reflexivity).
  split; [exact Hn|]. rewrite Hs, Hn. reflexivity.
Defined.
